(** * sConf: a shallow embedding of the parser, the value class and the
    document API, with the properties of its specification.

    Sources embedded here:
    - [sconf_value.hpp] / [sconf_value.cpp]: the tagged value class;
    - the parser implementation ([trim], [trimQuotes], [isArray],
      [parseArray], [parseLine], [saveValue], [load], [save], and the
      section / key / comment operations).

    A [std::string] is a list of characters; the two [unordered_map]s of the
    parser are finite maps; an exception is a result value. *)

From Stdlib Require Import Ascii String ZArith Lia DecimalString.
From Stdlib Require DecimalPos.
From stdpp Require Import gmap strings list fin_maps.

Set Warnings "-register-all".

Abbreviation str := (list ascii).
Coercion list_ascii_of_string : string >-> list.

(** ** Characters *)

Definition dquote : ascii := "034"%char.
Definition newline : ascii := "010"%char.
Definition comma : ascii := ","%char.
Definition semicolon : ascii := ";"%char.
Definition lbracket : ascii := "["%char.
Definition rbracket : ascii := "]"%char.
Definition equals : ascii := "="%char.
Definition space : ascii := " "%char.

(** [std::isspace] in the "C" locale: space, and the controls 9 to 13; no
    byte above 127. *)
Definition isspace (c : ascii) : bool :=
  match c with
  | "009" | "010" | "011" | "012" | "013" | " " => true
  | _ => false
  end%char.

(** ** [std::string] operations used by the parser *)

(** [s.substr(pos, n)], for [pos <= s.size()]: every call of the source is
    guarded so ([trimQuotes] by [size() >= 2], [parseLine] by the non-empty
    trimmed line and by the position [find] returned, [parseArray] by
    [isArray] at both of its call sites). *)
Definition substr (pos n : nat) (s : str) : str := take n (drop pos s).

(** [s.substr(pos)]. *)
Definition substr_from (pos : nat) (s : str) : str := drop pos s.

(** [s.find(c)]: the first position of [c], [None] for [npos]. *)
Fixpoint find (c : ascii) (s : str) : option nat :=
  match s with
  | [] => None
  | x :: s' => if decide (x = c) then Some 0 else S <$> find c s'
  end.

(** [std::find_if_not(first, last, p) - first]: the length of the longest
    prefix on which [p] holds. *)
Fixpoint find_if_not (p : ascii → bool) (s : str) : nat :=
  match s with
  | [] => 0
  | x :: s' => if p x then S (find_if_not p s') else 0
  end.

(** [sConfParser::trim]: [start] is the offset of the first non-space
    character, [end] the offset just after the last one (the base of the
    reverse iterator). *)
Definition trim (s : str) : str :=
  let start := find_if_not isspace s in
  let end_ := length s - find_if_not isspace (reverse s) in
  if start <? end_ then take (end_ - start) (drop start s) else [].

(** [sConfParser::trimQuotes]. *)
Definition trimQuotes (s : str) : str :=
  if (2 <=? length s)
     && bool_decide (head s = Some dquote)
     && bool_decide (last s = Some dquote)
  then substr 1 (length s - 2) s
  else s.

(** [sConfParser::isArray]. *)
Definition isArray (value : str) : bool :=
  negb (bool_decide (value = []))
  && bool_decide (head value = Some lbracket)
  && bool_decide (last value = Some rbracket).

(** One call of [std::getline(stream, item, delim)]: [None] when the
    stream is exhausted before any character is extracted (the call sets
    failbit and the loop ends), otherwise the item and the rest of the stream
    after the discarded delimiter. *)
Fixpoint getline (delim : ascii) (stream : str) : option (str * str) :=
  match stream with
  | [] => None
  | c :: rest =>
      if decide (c = delim) then Some ([], rest)
      else match getline delim rest with
           | None => Some ([c], [])
           | Some (item, rest') => Some (c :: item, rest')
           end
  end.

(** The items seen by [while(std::getline(stream, item, delim))]. *)
Fixpoint getlines (delim : ascii) (stream : str) : list str :=
  match stream with
  | [] => []
  | c :: rest =>
      if decide (c = delim) then [] :: getlines delim rest
      else match getlines delim rest with
           | [] => [[c]]
           | item :: items => (c :: item) :: items
           end
  end.

(** ** Values ([sconf_value.hpp]) *)

Module Type_.
Inductive t := String | Integer | Double | Boolean | Date | Array.
#[global] Instance eq_dec : EqDecision t.
Proof. solve_decision. Defined.
End Type_.

(** The three fields of the class: the text, the array payload and the tag. *)
Inductive sConfValue :=
  SConfValue (stringValue : str) (values : list sConfValue) (type : Type_.t).

Definition stringValue (v : sConfValue) : str :=
  match v with SConfValue s _ _ => s end.
Definition values (v : sConfValue) : list sConfValue :=
  match v with SConfValue _ vs _ => vs end.
Definition getType (v : sConfValue) : Type_.t :=
  match v with SConfValue _ _ t => t end.

(** The constructors from a string, a boolean and a vector. *)
Definition ofString (val : str) : sConfValue := SConfValue val [] Type_.String.
Definition ofBoolean (val : bool) : sConfValue :=
  SConfValue (if val then "true" else "false") [] Type_.Boolean.
Definition ofArray (val : list sConfValue) : sConfValue :=
  SConfValue [] val Type_.Array.

Definition value_isArray (v : sConfValue) : bool :=
  bool_decide (getType v = Type_.Array).

(** ** [sConfParser::parseArray] *)

(** The recursion of [parseArray] is on a strictly shorter string (a piece
    of the text between the brackets); [fuel] bounds its depth, and
    [parseArray_fuel_enough] below shows that the length of the argument is
    always enough. *)
Fixpoint parseArray_fuel (fuel : nat) (value : str) : list sConfValue :=
  match fuel with
  | 0 => []
  | S fuel' =>
      let inner := substr 1 (length value - 2) value in
      (λ item : str,
         let trimmed := trimQuotes (trim item) in
         if isArray trimmed then ofArray (parseArray_fuel fuel' trimmed)
         else ofString trimmed) <$> getlines comma inner
  end.

Definition parseArray (value : str) : list sConfValue :=
  parseArray_fuel (length value) value.

(** ** Exceptions *)

(** The source has one exception class, [SconfException], whose instances
    differ by their message; one constructor stands for each message of the
    embedded code. The last two are the standard exceptions [std::stoi] can
    raise. *)
Inductive exception :=
  | InvalidKeyValuePair (line : str)
  | UnsupportedValueType
  | SectionNotFound (section : str)
  | KeyNotFoundInSection (key : str)
  | KeyNotFound (key : str)
  | ValueIsNot (t : Type_.t)
  | StdInvalidArgument
  | StdOutOfRange.

Definition typeName (t : Type_.t) : str :=
  match t with
  | Type_.String => "a string"
  | Type_.Integer => "an integer"
  | Type_.Double => "a double"
  | Type_.Boolean => "a boolean"
  | Type_.Date => "a date"
  | Type_.Array => "an array"
  end.

(** [e.what()]. *)
Definition what (e : exception) : str :=
  match e with
  | InvalidKeyValuePair line => "Invalid key-value pair: " ++ line
  | UnsupportedValueType => "Unsupported value type"
  | SectionNotFound section => "Section not found: " ++ section
  | KeyNotFoundInSection key => "Key not found in section: " ++ key
  | KeyNotFound key => "Key not found: " ++ key
  | ValueIsNot t => "Value is not " ++ typeName t
  | StdInvalidArgument => "stoi"
  | StdOutOfRange => "stoi"
  end.

(** The error kinds the specification names, as they classify the
    exceptions of the source. *)
Module ErrorKind.
Inductive t :=
  | MalformedLine | SectionNotFound | KeyNotFound
  | TypeMismatch | ConversionError | UnsupportedType.
#[global] Instance eq_dec : EqDecision t.
Proof. solve_decision. Defined.
End ErrorKind.

Definition errorKind (e : exception) : ErrorKind.t :=
  match e with
  | InvalidKeyValuePair _ => ErrorKind.MalformedLine
  | UnsupportedValueType => ErrorKind.UnsupportedType
  | SectionNotFound _ => ErrorKind.SectionNotFound
  | KeyNotFoundInSection _ => ErrorKind.KeyNotFound
  | KeyNotFound _ => ErrorKind.KeyNotFound
  | ValueIsNot _ => ErrorKind.TypeMismatch
  | StdInvalidArgument => ErrorKind.ConversionError
  | StdOutOfRange => ErrorKind.ConversionError
  end.

(** A call either returns or throws. *)
Inductive Result (A : Type) :=
  | Ok (a : A)
  | Throw (e : exception).
Arguments Ok {A} a.
Arguments Throw {A} e.

#[global] Instance Result_ret : MRet Result := λ A a, Ok a.
#[global] Instance Result_bind : MBind Result := λ A B f r,
  match r with
  | Ok a => f a
  | Throw e => Throw e
  end.

(** ** Value accessors ([sconf_value.cpp]) *)

Definition INT_MIN : Z := - 2 ^ 31.
Definition INT_MAX : Z := 2 ^ 31 - 1.

Definition isdigit (c : ascii) : bool :=
  (48 <=? nat_of_ascii c) && (nat_of_ascii c <=? 57).

Fixpoint digitsValue (acc : Z) (s : str) : Z :=
  match s with
  | [] => acc
  | c :: s' =>
      if isdigit c then digitsValue (10 * acc + (Z.of_nat (nat_of_ascii c) - 48)) s'
      else acc
  end.

(** [std::stoi(s)]: leading white space, an optional sign, then the longest
    run of decimal digits; [std::invalid_argument] when there is no digit,
    [std::out_of_range] when the number does not fit an [int]. *)
Definition stoi (s : str) : Result Z :=
  let s1 := drop (find_if_not isspace s) s in
  let '(negative, s2) :=
    match s1 with
    | "-"%char :: r => (true, r)
    | "+"%char :: r => (false, r)
    | _ => (false, s1)
    end in
  match s2 with
  | c :: _ =>
      if isdigit c then
        let n := digitsValue 0 s2 in
        let v := if negative then (- n)%Z else n in
        if (INT_MIN <=? v)%Z && (v <=? INT_MAX)%Z then Ok v
        else Throw StdOutOfRange
      else Throw StdInvalidArgument
  | [] => Throw StdInvalidArgument
  end.

(** [std::to_string(int)] and [operator<<(int)]: the decimal numeral. *)
Definition to_string (n : Z) : str :=
  list_ascii_of_string (NilZero.string_of_int (Z.to_int n)).

Definition getInteger (v : sConfValue) : Result Z :=
  if decide (getType v ≠ Type_.Integer) then Throw (ValueIsNot Type_.Integer)
  else stoi (stringValue v).

Definition getBoolean (v : sConfValue) : Result bool :=
  if decide (getType v ≠ Type_.Boolean) then Throw (ValueIsNot Type_.Boolean)
  else Ok (bool_decide (stringValue v = "true")).

Definition getString (v : sConfValue) : Result str :=
  if decide (getType v ≠ Type_.String) then Throw (ValueIsNot Type_.String)
  else Ok (stringValue v).

Definition getArray (v : sConfValue) : Result (list sConfValue) :=
  if decide (getType v ≠ Type_.Array) then Throw (ValueIsNot Type_.Array)
  else Ok (values v).

Definition ofInteger (val : Z) : sConfValue :=
  SConfValue (to_string val) [] Type_.Integer.

(** The constructor from a [std::tm], on the text [strftime] formatted. *)
Definition ofDate (formatted : str) : sConfValue :=
  SConfValue formatted [] Type_.Date.

(** The setters: each fixes the tag, stores the new payload and clears the
    other one. *)
Definition setInteger (value : Z) (v : sConfValue) : sConfValue :=
  SConfValue (to_string value) [] Type_.Integer.




(** [sConfValue::isIntegral] and [sConfValue::isNumber]: a whole-string
    match of the regular expressions [-?\d+] and [-?\d+(\.\d+)?], where
    [\d] is a decimal digit. *)
Definition digits1 (s : str) : bool :=
  negb (bool_decide (s = [])) && forallb isdigit s.

Definition withoutMinus (s : str) : str :=
  match s with
  | "-"%char :: r => r
  | _ => s
  end.

Definition isIntegral (s : str) : bool := digits1 (withoutMinus s).

Definition isNumber (s : str) : bool :=
  let r := withoutMinus s in
  match find "."%char r with
  | None => digits1 r
  | Some pos => digits1 (take pos r) && digits1 (drop (pos + 1) r)
  end.

(** ** The parser object and [parseLine] *)

(** The two private maps of [sConfParser]. *)
Record sConfParser := {
  data : gmap str (gmap str sConfValue);
  comments : gmap str (list str)
}.

(** The default constructor. *)
Definition newParser : sConfParser := {| data := ∅; comments := ∅ |}.

(** The object together with the two locals of [load] that [parseLine]
    receives by reference. *)
Record LoadState := {
  parser : sConfParser;
  currentSection : str;
  commentBuffer : list str
}.

(** [sConfParser::parseLine]. The only [throw] precedes every assignment of
    the call, so a throwing call leaves the object and the two locals as they
    were. *)
Definition parseLine (line : str) (st : LoadState) : Result LoadState :=
  let trimmed := trim line in
  if bool_decide (trimmed = []) then Ok st
  else if bool_decide (head trimmed = Some semicolon) then
    Ok {| parser := parser st;
          currentSection := currentSection st;
          commentBuffer := commentBuffer st ++ [trim (substr_from 1 trimmed)] |}
  else if bool_decide (head trimmed = Some lbracket)
          && bool_decide (last trimmed = Some rbracket) then
    let section := trimQuotes (trim (substr 1 (length trimmed - 2) trimmed)) in
    let cm := comments (parser st) in
    let cm := if decide (cm !! section = None) then <[section := []]> cm else cm in
    let cm := <[section := default [] (cm !! section) ++ commentBuffer st]> cm in
    Ok {| parser := {| data := data (parser st); comments := cm |};
          currentSection := section;
          commentBuffer := [] |}
  else
    match find equals trimmed with
    | None => Throw (InvalidKeyValuePair line)
    | Some eqPos =>
        let key := trimQuotes (trim (substr 0 eqPos trimmed)) in
        let value := trim (substr_from (eqPos + 1) trimmed) in
        let value :=
          match find semicolon value with
          | Some commentPos => trimQuotes (trim (substr 0 commentPos value))
          | None => value
          end in
        let sValue :=
          if isArray value then ofArray (parseArray value)
          else ofString (trimQuotes value) in
        let section := currentSection st in
        let d := data (parser st) in
        Ok {| parser :=
                {| data := <[section := <[key := sValue]> (default ∅ (d !! section))]> d;
                   comments := comments (parser st) |};
              currentSection := section;
              commentBuffer := [] |}
    end.

(** The loop of [load]: it stops at the first line on which [parseLine]
    throws, and the exception leaves [load] with the object as the lines
    before it made it. *)
Fixpoint parseLines (lines : list str) (st : LoadState) : LoadState * option exception :=
  match lines with
  | [] => (st, None)
  | line :: rest =>
      match parseLine line st with
      | Ok st' => parseLines rest st'
      | Throw e => (st, Some e)
      end
  end.

(** [sConfParser::load], on the text of an opened file: the object after
    the call, and the exception the call ended with, if any. *)
Definition loadStart (p : sConfParser) : LoadState :=
  {| parser := p; currentSection := []; commentBuffer := [] |}.

Definition load (text : str) (p : sConfParser) : sConfParser * option exception :=
  let '(st, e) := parseLines (getlines newline text) (loadStart p) in
  (parser st, e).

(** ** The serializer *)

(** The [for] loop of the [Array] case of [saveValue]: each element is
    written by the recursive call, and ", " follows every element but the
    last. *)
Definition saveElements (saveValue : sConfValue → Result str)
    : list sConfValue → Result str :=
  fix go (l : list sConfValue) : Result str :=
    match l with
    | [] => Ok []
    | v :: l' =>
        x ← saveValue v;
        match l' with
        | [] => Ok x
        | _ :: _ => r ← go l'; Ok (x ++ ", " ++ r)
        end
    end.

Section Serializer.

(** [file << std::stod(text)] for the text of a [Double] value: the
    characters written, or the exception of [std::stod]. Floating-point
    conversion and formatting are left abstract. *)
Variable streamDouble : str → Result str.

(** [sConfParser::saveValue]: the characters written to the stream, or
    the exception that ends the call (what was written before it is not
    kept). The switch has no case for [Type::Date], which takes the [default]
    branch. In the [Array] and [Double] cases the type check of the accessor
    has passed, by the case. *)
Fixpoint saveValue (value : sConfValue) : Result str :=
  match value with
  | SConfValue text elements type =>
      match type with
      | Type_.Array =>
          inner ← saveElements saveValue elements;
          Ok ("[" ++ inner ++ "]")
      | Type_.String => getString value
      | Type_.Integer => n ← getInteger value; Ok (to_string n)
      | Type_.Double => streamDouble text
      | Type_.Boolean =>
          b ← getBoolean value; Ok (if b : bool then "true" : str else "false" : str)
      | Type_.Date => Throw UnsupportedValueType
      end
  end.

(** The comment lines written before the header of [section]. *)
Definition saveComments (p : sConfParser) (section : str) : str :=
  match comments p !! section with
  | Some cs => concat ((λ comment : str, "; " ++ comment ++ [newline]) <$> cs)
  | None => []
  end.

(** The inner loop of [save], over the pairs of one section in the order
    the map yields them. *)
Fixpoint saveKeys (keys : list (str * sConfValue)) : Result str :=
  match keys with
  | [] => Ok []
  | (key, value) :: rest =>
      x ← saveValue value;
      r ← saveKeys rest;
      Ok (key ++ " = " ++ x ++ [newline] ++ r)
  end.

(** The outer loop of [save], over the sections in the order the map
    yields them. *)
Fixpoint saveSections (p : sConfParser)
    (sections : list (str * list (str * sConfValue))) : Result str :=
  match sections with
  | [] => Ok []
  | (section, keys) :: rest =>
      ks ← saveKeys keys;
      r ← saveSections p rest;
      Ok (saveComments p section ++ "[" ++ section ++ "]" ++ [newline] ++ ks ++ r)
  end.

(** [sConfParser::save], with the map's own enumeration: the text
    written to the opened file. *)
Definition save (p : sConfParser) : Result str :=
  saveSections p (prod_map id map_to_list <$> map_to_list (data p)).

End Serializer.

(** An [unordered_map] yields its pairs in an unspecified order: any
    enumeration of the pairs is a possible iteration. *)
Definition iteration {V} (m : gmap str V) (l : list (str * V)) : Prop :=
  l ≡ₚ map_to_list m.

(** A possible iteration of [data] by the two nested loops of [save]. *)
Definition docIteration (p : sConfParser)
    (sections : list (str * list (str * sConfValue))) : Prop :=
  ∃ top, iteration (data p) top
         ∧ Forall2 (λ sk tk, sk.1 = tk.1 ∧ iteration tk.2 sk.2) sections top.

(** ** The document API *)

Definition withData (p : sConfParser) (d : gmap str (gmap str sConfValue)) : sConfParser :=
  {| data := d; comments := comments p |}.

(** [sConfParser::getSections]: the names in the order the map yields
    them, which is unspecified; the statements about it hold of every
    [iteration]. *)
Definition getSections (p : sConfParser) : list str := (map_to_list (data p)).*1.

Definition getSection (section : str) (p : sConfParser) : Result (gmap str sConfValue) :=
  match data p !! trimQuotes (trim section) with
  | Some keys => Ok keys
  | None => Throw (SectionNotFound section)
  end.

Definition addSection (section : str) (p : sConfParser) : sConfParser :=
  let sectionName := trimQuotes (trim section) in
  if decide (data p !! sectionName = None)
  then withData p (<[sectionName := ∅]> (data p))
  else p.

Definition setKey (section key : str) (value : sConfValue) (p : sConfParser)
    : Result sConfParser :=
  let sectionName := trimQuotes (trim section) in
  let keyName := trimQuotes (trim key) in
  match data p !! sectionName with
  | None => Throw (SectionNotFound section)
  | Some keys => Ok (withData p (<[sectionName := <[keyName := value]> keys]> (data p)))
  end.

(** [removeSection] strips the quotes of its argument without trimming it
    first. *)
Definition removeSection (section : str) (p : sConfParser) : Result sConfParser :=
  let sectionName := trimQuotes section in
  match data p !! sectionName with
  | None => Throw (SectionNotFound section)
  | Some _ =>
      Ok {| data := delete sectionName (data p);
            comments := delete sectionName (comments p) |}
  end.

Definition hasSection (section : str) (p : sConfParser) : bool :=
  bool_decide (is_Some (data p !! trimQuotes (trim section))).

Definition getSectionKeyPair (section : str) (p : sConfParser)
    : Result (gmap str sConfValue) :=
  match data p !! trimQuotes (trim section) with
  | Some keys => Ok keys
  | None => Throw (SectionNotFound section)
  end.

Definition hasSectionPairByKey (section key : str) (p : sConfParser) : bool :=
  match data p !! trimQuotes (trim section) with
  | None => false
  | Some keys => bool_decide (is_Some (keys !! trimQuotes (trim key)))
  end.

(** [removeSectionPairByKey]: one [throw] for both failures. *)
Definition removeSectionPairByKey (section key : str) (p : sConfParser)
    : Result sConfParser :=
  let keyName := trimQuotes (trim key) in
  let sectionName := trimQuotes (trim section) in
  match data p !! sectionName with
  | None => Throw (KeyNotFoundInSection keyName)
  | Some keys =>
      match keys !! keyName with
      | None => Throw (KeyNotFoundInSection keyName)
      | Some _ => Ok (withData p (<[sectionName := delete keyName keys]> (data p)))
      end
  end.

Definition isSectionPairArray (section key : str) (p : sConfParser) : Result bool :=
  let sectionName := trimQuotes (trim section) in
  let keyName := trimQuotes (trim key) in
  match data p !! sectionName with
  | None => Throw (SectionNotFound sectionName)
  | Some keys =>
      match keys !! keyName with
      | None => Throw (KeyNotFound keyName)
      | Some v => Ok (value_isArray v)
      end
  end.

Definition isSectionPairSingleString (section key : str) (p : sConfParser) : Result bool :=
  let sectionName := trimQuotes (trim section) in
  let keyName := trimQuotes (trim key) in
  match data p !! sectionName with
  | None => Throw (SectionNotFound sectionName)
  | Some keys =>
      match keys !! keyName with
      | None => Throw (KeyNotFound keyName)
      | Some v => Ok (negb (value_isArray v))
      end
  end.

Definition getSectionComment (section : str) (p : sConfParser) : Result (list str) :=
  let sectionName := trimQuotes (trim section) in
  match comments p !! sectionName with
  | Some cs => Ok cs
  | None => Throw (SectionNotFound sectionName)
  end.

Definition hasSectionComment (section : str) (p : sConfParser) : bool :=
  match comments p !! trimQuotes (trim section) with
  | Some cs => negb (bool_decide (cs = []))
  | None => false
  end.

Definition removeSectionComment (section : str) (p : sConfParser) : sConfParser :=
  let sectionName := trimQuotes (trim section) in
  match comments p !! sectionName with
  | Some _ => {| data := data p; comments := <[sectionName := []]> (comments p) |}
  | None => p
  end.

(** ** Predicates of the statements *)

(** Enclosed in one, respectively two, pairs of quotes. *)
Definition quoted (s : str) : Prop := ∃ t, s = dquote :: t ++ [dquote].
Definition doublyQuoted (s : str) : Prop :=
  ∃ t, s = dquote :: dquote :: t ++ [dquote; dquote].

(** The four kinds of line [parseLine] tells apart, and the line it
    rejects, by the tests of the source in their order. *)
Definition blankLine (line : str) : Prop := trim line = [].

Definition commentLine (line : str) : Prop := head (trim line) = Some semicolon.

Definition headerLine (line : str) : Prop :=
  head (trim line) = Some lbracket ∧ last (trim line) = Some rbracket.

Definition keyValueLine (line : str) (eqPos : nat) : Prop :=
  trim line ≠ [] ∧ head (trim line) ≠ Some semicolon ∧ ¬ headerLine line
  ∧ find equals (trim line) = Some eqPos.

Definition malformedLine (line : str) : Prop :=
  trim line ≠ [] ∧ head (trim line) ≠ Some semicolon ∧ ¬ headerLine line
  ∧ find equals (trim line) = None.

(** The section name, the key and the value [parseLine] computes from a
    trimmed line. *)
Definition sectionOfLine (trimmed : str) : str :=
  trimQuotes (trim (substr 1 (length trimmed - 2) trimmed)).

Definition keyOfLine (trimmed : str) (eqPos : nat) : str :=
  trimQuotes (trim (substr 0 eqPos trimmed)).

Definition valueOfLine (trimmed : str) (eqPos : nat) : sConfValue :=
  let value := trim (substr_from (eqPos + 1) trimmed) in
  let value :=
    match find semicolon value with
    | Some commentPos => trimQuotes (trim (substr 0 commentPos value))
    | None => value
    end in
  if isArray value then ofArray (parseArray value) else ofString (trimQuotes value).

(** What the loop body of [parseArray] makes of a trimmed item, and what
    [parseLine] makes of the text of a value. *)
Definition itemValue (t : str) : sConfValue :=
  if isArray t then ofArray (parseArray t) else ofString t.

Definition textValue (t : str) : sConfValue :=
  if isArray t then ofArray (parseArray t) else ofString (trimQuotes t).

(** [data[section][key]] is present. *)
Definition holdsKey (d : gmap str (gmap str sConfValue)) (section key : str) : Prop :=
  ∃ keys, d !! section = Some keys ∧ is_Some (keys !! key).

(** Neither the first nor the last character is white space. *)
Definition trimmed (s : str) : Prop :=
  s = []
  ∨ (∃ a, head s = Some a ∧ isspace a = false)
    ∧ (∃ b, last s = Some b ∧ isspace b = false).

(** ** The round trip: what is stored, and what is written *)

(** The separators of [saveValue] between the texts of the elements. *)
Fixpoint joinComma (texts : list str) : str :=
  match texts with
  | [] => []
  | x :: rest =>
      match rest with
      | [] => x
      | _ :: _ => x ++ ", " ++ joinComma rest
      end
  end.

(** The text [saveValue] writes for a value made of strings and arrays. *)
Fixpoint render (v : sConfValue) : str :=
  match v with
  | SConfValue text elements type =>
      match type with
      | Type_.Array => "[" ++ joinComma (render <$> elements) ++ "]"
      | _ => text
      end
  end.

(** [P] holds of a value and of every value nested in it; [P] is told
    whether the value is an element of an array. *)
Fixpoint everyValue (P : bool → sConfValue → Prop) (nested : bool) (v : sConfValue) : Prop :=
  P nested v
  ∧ match v with
    | SConfValue _ elements _ => foldr (λ x rest, everyValue P true x ∧ rest) True elements
    end.

(** What [parseLine] can store: strings and arrays only, built by the two
    constructors, without a line break; an array inside an array was parsed
    from a piece without a comma, so it has at most one element. *)
Definition parsedNode (nested : bool) (v : sConfValue) : Prop :=
  match getType v with
  | Type_.String => values v = [] ∧ (newline ∉ stringValue v)
  | Type_.Array => stringValue v = [] ∧ (nested = true → length (values v) ≤ 1)
  | _ => False
  end.

Definition parsedDocument (p : sConfParser) : Prop :=
  (∀ section keys, data p !! section = Some keys →
     (newline ∉ section) ∧ keys ≠ ∅
     ∧ ∀ key v, keys !! key = Some v →
         (newline ∉ key) ∧ (equals ∉ key) ∧ everyValue parsedNode false v)
  ∧ (∀ section cs, comments p !! section = Some cs →
       Forall (λ c, (newline ∉ c) ∧ trim c = c) cs).

(** The characters the round-trip property excludes from stored strings. *)
Definition reserved : list ascii := [comma; semicolon; lbracket; rbracket; dquote].

(** No string of the value contains a reserved character. *)
Definition plainNode (nested : bool) (v : sConfValue) : Prop :=
  match getType v with
  | Type_.String => Forall (λ c, c ∉ reserved) (stringValue v)
  | _ => True
  end.

(** No string of the value begins or ends with white space, and no array
    is the array of the empty string alone. *)
Definition tidyNode (nested : bool) (v : sConfValue) : Prop :=
  match getType v with
  | Type_.String => trim (stringValue v) = stringValue v
  | Type_.Array => values v ≠ [ofString []]
  | _ => True
  end.

(** The condition of the round-trip property on a document: the stored
    strings are plain. *)
Definition plainDocument (p : sConfParser) : Prop :=
  ∀ section keys key v,
    data p !! section = Some keys → keys !! key = Some v → everyValue plainNode false v.

(** The further conditions the round trip needs: section names and keys
    are their own normal form, no key begins with ';', a key that begins with
    '[' does not hold an array, and the values are tidy. *)
Definition tidyDocument (p : sConfParser) : Prop :=
  ∀ section keys,
    data p !! section = Some keys →
    trimQuotes (trim section) = section
    ∧ ∀ key v, keys !! key = Some v →
        trimQuotes (trim key) = key
        ∧ head key ≠ Some semicolon
        ∧ (head key = Some lbracket → getType v ≠ Type_.Array)
        ∧ everyValue tidyNode false v.

(** An element [parseArray] reads back from its own text. *)
Definition goodItem (e : sConfValue) : Prop :=
  (comma ∉ render e)
  ∧ trimmed (render e)
  ∧ ¬ quoted (render e)
  ∧ itemValue (render e) = e
  ∧ (render e = [] → e = ofString []).

(** The lines [save] writes for one section: its comments, its header and
    its pairs; and a text as the lines it is made of. *)
Definition commentLines (p : sConfParser) (section : str) : list str :=
  (λ comment : str, semicolon :: space :: comment) <$> default [] (comments p !! section).

Definition keyLines (keys : list (str * sConfValue)) : list str :=
  (λ kv : str * sConfValue, kv.1 ++ space :: equals :: space :: render kv.2) <$> keys.

Definition sectionLines (p : sConfParser) (sk : str * list (str * sConfValue)) : list str :=
  commentLines p sk.1 ++ [lbracket :: sk.1 ++ [rbracket]] ++ keyLines sk.2.

Definition unlines (lines : list str) : str :=
  concat ((λ line : str, line ++ [newline]) <$> lines).

(** A pair, and a section with the pairs in the order [save] visits them,
    that [parseLine] reads back from the lines [save] writes for them. *)
Definition savablePair (kv : str * sConfValue) : Prop :=
  (newline ∉ kv.1) ∧ (equals ∉ kv.1)
  ∧ trimQuotes (trim kv.1) = kv.1
  ∧ head kv.1 ≠ Some semicolon
  ∧ (head kv.1 = Some lbracket → getType kv.2 ≠ Type_.Array)
  ∧ everyValue parsedNode false kv.2
  ∧ everyValue plainNode false kv.2
  ∧ everyValue tidyNode false kv.2.

Definition savableSection (p : sConfParser) (sk : str * list (str * sConfValue)) : Prop :=
  (newline ∉ sk.1)
  ∧ trimQuotes (trim sk.1) = sk.1
  ∧ Forall (λ c, (newline ∉ c) ∧ trim c = c) (default [] (comments p !! sk.1))
  ∧ sk.2 ≠ []
  ∧ NoDup sk.2.*1
  ∧ Forall savablePair sk.2.

(** The assignment [data[section][key] = value] for each pair in turn. *)
Definition insertKeys (d : gmap str (gmap str sConfValue)) (section : str)
    (keys : list (str * sConfValue)) : gmap str (gmap str sConfValue) :=
  foldl (λ d kv, <[section := <[kv.1 := kv.2]> (default ∅ (d !! section))]> d) d keys.

(** A section of [save]'s iteration as an entry of [data], and as an entry
    of the comments map after the saved text is loaded. *)
Definition sectionEntry (sk : str * list (str * sConfValue)) : str * gmap str sConfValue :=
  (sk.1, list_to_map sk.2).

Definition commentEntry (p : sConfParser) (sk : str * list (str * sConfValue))
    : str * list str :=
  (sk.1, default [] (comments p !! sk.1)).

(** What holds of the object and the two locals while [load] runs. *)
Definition parsedState (st : LoadState) : Prop :=
  parsedDocument (parser st)
  ∧ (newline ∉ currentSection st)
  ∧ Forall (λ c, (newline ∉ c) ∧ trim c = c) (commentBuffer st).

(** Two inputs: the example of the specification, and a value in quotes
    with a space inside each quote. *)
Definition exampleText : str :=
  "; header comment" ++ [newline]
  ++ "[settings]" ++ [newline]
  ++ "name = " ++ [dquote] ++ "Ada" ++ [dquote] ++ "      ; person" ++ [newline]
  ++ "nums = [1, 2, 3]" ++ [newline].

Definition paddedText : str := "k = " ++ [dquote] ++ " a " ++ [dquote].

(** [data[section][key]] after [load] of a text, and after [save] of that
    document and [load] of the text written. *)
Definition storedThenReloaded (text section key : str)
    : option sConfValue * option sConfValue :=
  let p := (load text newParser).1 in
  (data p !! section ≫= (.!! key),
   match save (λ _, Ok []) p with
   | Ok out => data (load out newParser).1 !! section ≫= (.!! key)
   | Throw _ => None
   end).

(** The characters of a decimal numeral, most significant digit first. *)
Definition digitChars (d : Decimal.uint) : str :=
  list_ascii_of_string (NilEmpty.string_of_uint d).

(** What [parseArray] can return as an element, at any depth: a string
    without a comma that is not itself an array text, or an array of at most
    one element. *)
Definition itemNode (nested : bool) (v : sConfValue) : Prop :=
  match getType v with
  | Type_.String =>
      values v = [] ∧ (comma ∉ stringValue v) ∧ isArray (stringValue v) = false
  | Type_.Array => stringValue v = [] ∧ length (values v) ≤ 1
  | _ => False
  end.

(** The state after [parseLine] assigned [data[currentSection][key]] and
    cleared the comment buffer. *)
Definition withPair (st : LoadState) (key : str) (value : sConfValue) : LoadState :=
  {| parser :=
       {| data :=
            <[currentSection st :=
                <[key := value]> (default ∅ (data (parser st) !! currentSection st))]>
              (data (parser st));
          comments := comments (parser st) |};
     currentSection := currentSection st;
     commentBuffer := [] |}.

(** [data[section][key]], if present. *)
Definition pairAt (d : gmap str (gmap str sConfValue)) (section key : str)
    : option sConfValue :=
  d !! section ≫= (.!! key).

(** Two runs of the loop of [load] over the same lines, the second one
    started from the object [final] the first one ends with: what relates the
    data of the two states, and what relates their comments. *)
Definition reloadingData (final : sConfParser) (a b : LoadState) : Prop :=
  currentSection a = currentSection b
  ∧ (∀ s k, pairAt (data (parser b)) s k = pairAt (data (parser a)) s k
            ∨ pairAt (data (parser b)) s k = pairAt (data final) s k)
  ∧ (∀ s, (is_Some (data (parser b) !! s) ↔ is_Some (data (parser a) !! s))
          ∨ (is_Some (data (parser b) !! s) ↔ is_Some (data final !! s))).

Definition reloadingComments (final : sConfParser) (a b : LoadState) : Prop :=
  commentBuffer a = commentBuffer b
  ∧ ∀ s, comments (parser b) !! s
         = match comments (parser a) !! s with
           | Some cs => Some (default [] (comments final !! s) ++ cs)
           | None => comments final !! s
           end.

(** * Properties *)

(** ** Strings *)

Lemma getlines_getline delim stream :
  getlines delim stream =
    match getline delim stream with
    | None => []
    | Some (item, rest) => item :: getlines delim rest
    end.
Proof.
  induction stream as [|c rest IH]; [done|]. simpl.
  destruct (decide (c = delim)); [done|].
  rewrite IH. by destruct (getline delim rest) as [[item rest']|].
Qed.

Lemma last_cons_snoc (c x : ascii) (t : str) : last (c :: t ++ [x]) = Some x.
Proof. by rewrite app_comm_cons, last_snoc. Qed.

Lemma snoc_inv (s : str) : s = [] ∨ ∃ t x, s = t ++ [x].
Proof.
  induction s as [|x t _] using rev_ind; [by left | right; eauto].
Qed.

(** A string of at least two characters with given first and last
    character is that first character, a middle, and that last one. *)
Lemma head_last_inv (s : str) (a b : ascii) :
  2 ≤ length s → head s = Some a → last s = Some b →
  ∃ t, s = a :: t ++ [b].
Proof.
  intros Hlen Hh Hl. destruct s as [|c s']; [done|].
  simpl in Hh. injection Hh as ->.
  destruct (snoc_inv s') as [->|(t & x & ->)]; [simpl in Hlen; lia|].
  rewrite last_cons_snoc in Hl. injection Hl as ->. eauto.
Qed.

(** ** [trimQuotes] *)

Lemma trimQuotes_quoted (t : str) : trimQuotes (dquote :: t ++ [dquote]) = t.
Proof.
  unfold trimQuotes. rewrite last_cons_snoc. simpl head.
  rewrite !bool_decide_eq_true_2 by done.
  replace (2 <=? length (dquote :: t ++ [dquote])) with true
    by (symmetry; apply Nat.leb_le; simpl; rewrite length_app; simpl; lia).
  simpl. unfold substr. simpl. rewrite length_app. simpl.
  replace (length t + 1 - 1) with (length t) by lia.
  by rewrite drop_0, take_app_length.
Qed.

Lemma trimQuotes_unquoted (s : str) : ¬ quoted s → trimQuotes s = s.
Proof.
  intros Hnq. unfold trimQuotes.
  destruct (2 <=? length s) eqn:Hlen; [|done].
  destruct (bool_decide (head s = Some dquote)) eqn:Hh; [|done].
  destruct (bool_decide (last s = Some dquote)) eqn:Hl; [|done].
  exfalso. apply Hnq.
  apply Nat.leb_le in Hlen.
  apply bool_decide_eq_true_1 in Hh. apply bool_decide_eq_true_1 in Hl.
  by apply head_last_inv.
Qed.

Lemma quoted_dec (s : str) : quoted s ∨ ¬ quoted s.
Proof.
  destruct (decide (2 ≤ length s ∧ head s = Some dquote ∧ last s = Some dquote))
    as [(? & ? & ?)|Hn].
  - left. by apply head_last_inv.
  - right. intros [t ->]. apply Hn. split_and!.
    + simpl. rewrite length_app. simpl. lia.
    + done.
    + apply last_cons_snoc.
Qed.

Lemma trimQuotes_length (s : str) : length (trimQuotes s) ≤ length s.
Proof.
  destruct (quoted_dec s) as [[t ->]|Hn].
  - rewrite trimQuotes_quoted. simpl. rewrite length_app. lia.
  - by rewrite trimQuotes_unquoted.
Qed.

(** C6, as stated, fails: stripping is one level per call, so a string in
    two pairs of quotes loses one pair at each of the two calls. *)
Lemma trimQuotes_twice_differs :
  let s := [dquote; dquote] ++ "a" ++ [dquote; dquote] in
  trimQuotes (trimQuotes s) ≠ trimQuotes s.
Proof. vm_compute. discriminate. Qed.

(** C6 (amended): [trimQuotes (trimQuotes s) = trimQuotes s] holds exactly
    for the strings [s] that are not enclosed in two pairs of double
    quotes. *)
Theorem trimQuotes_idempotent_iff (s : str) :
  trimQuotes (trimQuotes s) = trimQuotes s ↔ ¬ doublyQuoted s.
Proof.
  split.
  - intros Heq [t ->].
    change (dquote :: dquote :: t ++ [dquote; dquote])
      with (dquote :: (dquote :: t ++ [dquote; dquote])) in Heq.
    replace (dquote :: t ++ [dquote; dquote])
      with ((dquote :: t ++ [dquote]) ++ [dquote]) in Heq
      by (simpl; by rewrite <- app_assoc).
    rewrite !trimQuotes_quoted in Heq.
    apply (f_equal length) in Heq. simpl in Heq. rewrite length_app in Heq.
    simpl in Heq. lia.
  - intros Hnd. destruct (quoted_dec s) as [[t ->]|Hn].
    + rewrite trimQuotes_quoted. apply trimQuotes_unquoted.
      intros [u ->]. apply Hnd. exists u. simpl. by rewrite <- app_assoc.
    + by rewrite !(trimQuotes_unquoted s Hn).
Qed.

Lemma trimQuotes_idempotent_iff_witness :
  trimQuotes (trimQuotes (dquote :: "a" ++ [dquote]))
  = trimQuotes (dquote :: "a" ++ [dquote]).
Proof.
  apply trimQuotes_idempotent_iff. intros [t Ht]. vm_compute in Ht.
  discriminate Ht.
Defined.

(** ** Arrays *)

(** C2: [isArray] accepts the flat literal; but [parseArray] splits the
    text between the outer brackets at every comma, so the nested literal
    comes back as four strings, the bracket characters left inside the third
    and the fourth, although [saveValue] writes the array of "1", "2" and the
    array of "3" and "4" as that very text. *)
Theorem parseArray_nested_literal (streamDouble : str → Result str) :
  isArray "[1, 2, 3]" = true
  ∧ parseArray "[1, 2, [3, 4]]"
    = [ofString "1"; ofString "2"; ofString "[3"; ofString "4]"]
  ∧ saveValue streamDouble
      (ofArray [ofString "1"; ofString "2"; ofArray [ofString "3"; ofString "4"]])
    = Ok ("[1, 2, [3, 4]]" : str).
Proof. split_and!; reflexivity. Qed.

(** ** The serializer's switch *)

(** C3: a [Date] value takes the [default] branch of [saveValue], whatever
    its text. *)
Theorem saveValue_Date_unsupported (streamDouble : str → Result str) (text : str) :
  saveValue streamDouble (ofDate text) = Throw UnsupportedValueType.
Proof. reflexivity. Qed.

(** The same from the API: a document holding a date cannot be saved. *)
Lemma save_Date_throws (streamDouble : str → Result str) :
  ∃ p, setKey "s" "d" (ofDate "2024-01-01 00:00:00") (addSection "s" newParser) = Ok p
       ∧ save streamDouble p = Throw UnsupportedValueType.
Proof. eexists. split; [reflexivity|]. vm_compute. reflexivity. Qed.

(** ** The document API *)

(** C8: [setKey] throws "Section not found" when the normalized section is
    not in the document, and after [addSection] of the same name it returns
    and the value is stored under the normalized key of the normalized
    section. *)
Theorem setKey_needs_section (section key : str) (value : sConfValue) (p : sConfParser) :
  (data p !! trimQuotes (trim section) = None →
     setKey section key value p = Throw (SectionNotFound section)
     ∧ errorKind (SectionNotFound section) = ErrorKind.SectionNotFound)
  ∧ ∃ p', setKey section key value (addSection section p) = Ok p'
          ∧ (data p' !! trimQuotes (trim section)) ≫= (.!! trimQuotes (trim key))
            = Some value.
Proof.
  split.
  - intros Hnone. unfold setKey. by rewrite Hnone.
  - unfold setKey, addSection.
    destruct (decide (data p !! trimQuotes (trim section) = None)) as [Hn|Hs]; simpl.
    + rewrite lookup_insert_eq. eexists. split; [done|]. simpl.
      rewrite lookup_insert_eq. simpl. by rewrite lookup_insert_eq.
    + destruct (data p !! trimQuotes (trim section)) as [keys|] eqn:Hl; [|done].
      eexists. split; [done|]. simpl.
      rewrite lookup_insert_eq. simpl. by rewrite lookup_insert_eq.
Qed.

Lemma setKey_needs_section_witness :
  setKey "s" "k" (ofString "v") newParser = Throw (SectionNotFound "s").
Proof.
  apply (setKey_needs_section "s" "k" (ofString "v") newParser). reflexivity.
Defined.

(** C5, as stated, fails: on a document without the section the exception
    of [removeSectionPairByKey] carries the "Key not found in section"
    message, not "Section not found". *)
Lemma removeSectionPairByKey_absent_section :
  data newParser !! trimQuotes (trim "s") = None
  ∧ removeSectionPairByKey "s" "k" newParser = Throw (KeyNotFoundInSection "k")
  ∧ errorKind (KeyNotFoundInSection "k") ≠ ErrorKind.SectionNotFound.
Proof. split_and!; [reflexivity | reflexivity | discriminate]. Qed.

(** C5 (amended): [removeSectionPairByKey] throws one and the same "Key
    not found in section" exception, naming the normalized key, when the
    normalized section is absent and when the section exists without the
    normalized key; otherwise it returns, the key is gone from the section,
    the other keys, the other sections and the comments are untouched. *)
Theorem removeSectionPairByKey_spec (section key : str) (p : sConfParser) :
  let sectionName := trimQuotes (trim section) in
  let keyName := trimQuotes (trim key) in
  (data p !! sectionName = None →
     removeSectionPairByKey section key p = Throw (KeyNotFoundInSection keyName))
  ∧ (∀ keys, data p !! sectionName = Some keys → keys !! keyName = None →
       removeSectionPairByKey section key p = Throw (KeyNotFoundInSection keyName))
  ∧ (∀ keys, data p !! sectionName = Some keys → is_Some (keys !! keyName) →
       ∃ p', removeSectionPairByKey section key p = Ok p'
             ∧ data p' !! sectionName = Some (delete keyName keys)
             ∧ hasSectionPairByKey section key p' = false
             ∧ (∀ s, s ≠ sectionName → data p' !! s = data p !! s)
             ∧ comments p' = comments p).
Proof.
  intros sectionName keyName. unfold removeSectionPairByKey.
  fold sectionName keyName. split_and!.
  - by intros ->.
  - by intros keys -> ->.
  - intros keys Hs [v Hk]. rewrite Hs, Hk. eexists. split; [done|].
    unfold hasSectionPairByKey. fold sectionName keyName. simpl.
    rewrite lookup_insert_eq. split_and!; [done| |..|done].
    + rewrite lookup_delete_eq. by apply bool_decide_eq_false_2, is_Some_None.
    + intros s Hne. by rewrite lookup_insert_ne.
Qed.

Lemma removeSectionPairByKey_spec_witness :
  removeSectionPairByKey "s" "k" newParser = Throw (KeyNotFoundInSection "k").
Proof.
  apply (removeSectionPairByKey_spec "s" "k" newParser). reflexivity.
Defined.

(** Every operation but [removeSection] looks the section up under
    [trimQuotes (trim section)]; two arguments with the same normal form get
    the same answer from them (the exceptions of [getSection],
    [getSectionKeyPair] and [setKey] quote the argument as it was given, so
    for these the kind of the outcome is compared). *)
Lemma normalized_section_lookup (s1 s2 key : str) (value : sConfValue) (p : sConfParser) :
  trimQuotes (trim s1) = trimQuotes (trim s2) →
  addSection s1 p = addSection s2 p
  ∧ hasSection s1 p = hasSection s2 p
  ∧ hasSectionPairByKey s1 key p = hasSectionPairByKey s2 key p
  ∧ removeSectionPairByKey s1 key p = removeSectionPairByKey s2 key p
  ∧ isSectionPairArray s1 key p = isSectionPairArray s2 key p
  ∧ isSectionPairSingleString s1 key p = isSectionPairSingleString s2 key p
  ∧ getSectionComment s1 p = getSectionComment s2 p
  ∧ hasSectionComment s1 p = hasSectionComment s2 p
  ∧ removeSectionComment s1 p = removeSectionComment s2 p
  ∧ (∀ keys, getSection s1 p = Ok keys ↔ getSection s2 p = Ok keys)
  ∧ (∀ keys, getSectionKeyPair s1 p = Ok keys ↔ getSectionKeyPair s2 p = Ok keys)
  ∧ (∀ p', setKey s1 key value p = Ok p' ↔ setKey s2 key value p = Ok p').
Proof.
  intros Heq.
  unfold addSection, hasSection, hasSectionPairByKey, removeSectionPairByKey,
    isSectionPairArray, isSectionPairSingleString, getSectionComment,
    hasSectionComment, removeSectionComment, getSection, getSectionKeyPair, setKey.
  rewrite Heq. split_and!; try done.
  - intros keys. by destruct (data p !! trimQuotes (trim s2)).
  - intros keys. by destruct (data p !! trimQuotes (trim s2)).
  - intros p'. by destruct (data p !! trimQuotes (trim s2)).
Qed.

(** C4: [removeSection] looks its argument up under [trimQuotes section]
    only. With a section "foo" in the document, the argument " foo " has the
    normal form "foo" and [hasSection] finds it, [removeSection "foo"]
    removes it, but [removeSection " foo "] throws "Section not found". *)
Theorem removeSection_without_trim :
  let p := addSection "foo" newParser in
  trimQuotes (trim " foo ") = trimQuotes (trim "foo")
  ∧ hasSection " foo " p = true
  ∧ hasSection "foo" p = true
  ∧ removeSection " foo " p = Throw (SectionNotFound " foo ")
  ∧ ∃ p', removeSection "foo" p = Ok p' ∧ hasSection "foo" p' = false.
Proof.
  split_and!; [reflexivity | by vm_compute | by vm_compute | by vm_compute |].
  eexists. split; [reflexivity|]. by vm_compute.
Qed.

(** ** [parseLine], branch by branch *)

Lemma parseLine_blank (line : str) (st : LoadState) :
  blankLine line → parseLine line st = Ok st.
Proof. unfold blankLine, parseLine. by intros ->. Qed.

Lemma parseLine_comment (line : str) (st : LoadState) :
  commentLine line →
  parseLine line st
  = Ok {| parser := parser st;
          currentSection := currentSection st;
          commentBuffer := commentBuffer st ++ [trim (substr_from 1 (trim line))] |}.
Proof.
  unfold commentLine, parseLine. intros Hc.
  destruct (trim line) as [|c t] eqn:Ht; [done|].
  rewrite bool_decide_eq_false_2 by done.
  by rewrite bool_decide_eq_true_2.
Qed.

Lemma parseLine_header (line : str) (st : LoadState) :
  headerLine line →
  parseLine line st
  = Ok {| parser :=
            {| data := data (parser st);
               comments :=
                 <[sectionOfLine (trim line) :=
                     default [] (comments (parser st) !! sectionOfLine (trim line))
                     ++ commentBuffer st]> (comments (parser st)) |};
          currentSection := sectionOfLine (trim line);
          commentBuffer := [] |}.
Proof.
  unfold headerLine, parseLine. intros [Hh Hl].
  destruct (trim line) as [|c t] eqn:Ht; [done|].
  rewrite bool_decide_eq_false_2 by done.
  simpl in Hh. injection Hh as ->.
  rewrite (bool_decide_eq_false_2 (head (lbracket :: t) = Some semicolon)) by done.
  rewrite !bool_decide_eq_true_2 by done. simpl andb. cbv iota.
  fold (sectionOfLine (lbracket :: t)).
  set (name := sectionOfLine (lbracket :: t)).
  do 3 f_equal.
  destruct (decide (comments (parser st) !! name = None)) as [Hn|Hs].
  - rewrite lookup_insert_eq, Hn. simpl. by rewrite insert_insert_eq.
  - done.
Qed.

Lemma not_header_test (line : str) :
  ¬ headerLine line →
  bool_decide (head (trim line) = Some lbracket)
  && bool_decide (last (trim line) = Some rbracket) = false.
Proof.
  intros Hn. apply andb_false_iff.
  destruct (decide (head (trim line) = Some lbracket)) as [Hh|Hh].
  - right. apply bool_decide_eq_false_2. intros Hl. by apply Hn.
  - left. by apply bool_decide_eq_false_2.
Qed.

Lemma parseLine_keyValue (line : str) (eqPos : nat) (st : LoadState) :
  keyValueLine line eqPos →
  parseLine line st
  = Ok {| parser :=
            {| data :=
                 <[currentSection st :=
                     <[keyOfLine (trim line) eqPos := valueOfLine (trim line) eqPos]>
                       (default ∅ (data (parser st) !! currentSection st))]>
                   (data (parser st));
               comments := comments (parser st) |};
          currentSection := currentSection st;
          commentBuffer := [] |}.
Proof.
  intros (Hne & Hc & Hh & Hf). unfold parseLine.
  rewrite (bool_decide_eq_false_2 (trim line = [])) by done.
  rewrite (bool_decide_eq_false_2 (head (trim line) = Some semicolon)) by done.
  rewrite not_header_test by done. by rewrite Hf.
Qed.

Lemma parseLine_malformed (line : str) (st : LoadState) :
  malformedLine line → parseLine line st = Throw (InvalidKeyValuePair line).
Proof.
  intros (Hne & Hc & Hh & Hf). unfold parseLine.
  rewrite (bool_decide_eq_false_2 (trim line = [])) by done.
  rewrite (bool_decide_eq_false_2 (head (trim line) = Some semicolon)) by done.
  rewrite not_header_test by done. by rewrite Hf.
Qed.

(** Every line is of exactly one of the five kinds; the first that applies
    in the order of the tests is given. *)
Lemma line_cases (line : str) :
  blankLine line ∨ commentLine line ∨ headerLine line
  ∨ (∃ eqPos, keyValueLine line eqPos) ∨ malformedLine line.
Proof.
  unfold blankLine, commentLine, keyValueLine, malformedLine.
  destruct (decide (trim line = [])) as [?|Hne]; [by left|].
  destruct (decide (head (trim line) = Some semicolon)) as [?|Hc]; [by right; left|].
  destruct (decide (head (trim line) = Some lbracket ∧ last (trim line) = Some rbracket))
    as [?|Hh]; [by right; right; left|].
  destruct (find equals (trim line)) as [eqPos|] eqn:Hf.
  - right; right; right; left. by exists eqPos.
  - by right; right; right; right.
Qed.

(** The only exception of [parseLine] is the one for a line without '='. *)
Lemma parseLine_Throw_inv (line : str) (st : LoadState) (e : exception) :
  parseLine line st = Throw e → malformedLine line ∧ e = InvalidKeyValuePair line.
Proof.
  intros H.
  destruct (line_cases line) as [Hb|[Hc|[Hh|[[eqPos Hkv]|Hm]]]].
  - by rewrite parseLine_blank in H.
  - by rewrite parseLine_comment in H.
  - by rewrite parseLine_header in H.
  - by rewrite (parseLine_keyValue _ eqPos) in H.
  - rewrite parseLine_malformed in H by done. by injection H as <-.
Qed.

(** C7: a blank line changes nothing; a comment line appends its text to
    the buffer and changes nothing else; a section header line empties the
    buffer, appends the buffered comments to the section's entry of the
    comments map (created if absent, so the entry exists even when the buffer
    was empty) and leaves [data] as it was; a key=value line empties the
    buffer, leaves the comments map as it was and assigns
    [data[currentSection][key]], which creates the section in [data] when it
    was absent. *)
Theorem parseLine_comment_buffer (line : str) (st : LoadState) :
  (blankLine line → parseLine line st = Ok st)
  ∧ (commentLine line →
       ∃ st', parseLine line st = Ok st'
              ∧ commentBuffer st' = commentBuffer st ++ [trim (substr_from 1 (trim line))]
              ∧ parser st' = parser st
              ∧ currentSection st' = currentSection st)
  ∧ (headerLine line →
       let name := sectionOfLine (trim line) in
       ∃ st', parseLine line st = Ok st'
              ∧ commentBuffer st' = []
              ∧ currentSection st' = name
              ∧ data (parser st') = data (parser st)
              ∧ comments (parser st') !! name
                = Some (default [] (comments (parser st) !! name) ++ commentBuffer st)
              ∧ ∀ s, s ≠ name → comments (parser st') !! s = comments (parser st) !! s)
  ∧ (∀ eqPos, keyValueLine line eqPos →
       let section := currentSection st in
       ∃ st', parseLine line st = Ok st'
              ∧ commentBuffer st' = []
              ∧ currentSection st' = section
              ∧ comments (parser st') = comments (parser st)
              ∧ data (parser st') !! section
                = Some (<[keyOfLine (trim line) eqPos := valueOfLine (trim line) eqPos]>
                          (default ∅ (data (parser st) !! section)))
              ∧ ∀ s, s ≠ section → data (parser st') !! s = data (parser st) !! s).
Proof.
  split_and!.
  - apply parseLine_blank.
  - intros Hc. eexists. split; [by apply parseLine_comment|]. by destruct st.
  - intros Hh name. eexists. split; [by apply parseLine_header|]. simpl.
    split_and!; try done.
    + by rewrite lookup_insert_eq.
    + intros s Hne. by rewrite lookup_insert_ne.
  - intros eqPos Hkv section. eexists. split; [by apply parseLine_keyValue|]. simpl.
    split_and!; try done.
    + by rewrite lookup_insert_eq.
    + intros s Hne. by rewrite lookup_insert_ne.
Qed.

Lemma parseLine_comment_buffer_witness :
  let st := {| parser := newParser; currentSection := "s"; commentBuffer := ["c" : str] |} in
  parseLine "  " st = Ok st
  ∧ (∃ st', parseLine " ; d " st = Ok st' ∧ commentBuffer st' = ["c" : str; "d" : str])
  ∧ (∃ st', parseLine "[t]" st = Ok st' ∧ commentBuffer st' = []
            ∧ data (parser st') = ∅
            ∧ comments (parser st') !! ("t" : str) = Some ["c" : str])
  ∧ (∃ st', parseLine "k = v" st = Ok st' ∧ commentBuffer st' = []
            ∧ comments (parser st') = ∅
            ∧ data (parser st') !! ("s" : str) = Some {[ ("k" : str) := ofString "v" ]}).
Proof.
  intros st. split_and!.
  - apply (parseLine_comment_buffer "  " st). reflexivity.
  - destruct (parseLine_comment_buffer " ; d " st) as (_ & H & _).
    destruct H as (st' & H1 & H2 & _); [reflexivity|]. by exists st'.
  - destruct (parseLine_comment_buffer "[t]" st) as (_ & _ & H & _).
    destruct H as (st' & H1 & H2 & _ & H4 & H5 & _); [split; reflexivity|].
    by exists st'.
  - destruct (parseLine_comment_buffer "k = v" st) as (_ & _ & _ & H).
    destruct (H 2) as (st' & H1 & H2 & _ & H4 & H5 & _).
    { split_and!; [discriminate | discriminate | | reflexivity].
      intros [Hh _]. discriminate Hh. }
    by exists st'.
Defined.

(** ** The loop of [load] *)

Lemma parseLines_app (l1 l2 : list str) (st : LoadState) :
  parseLines (l1 ++ l2) st
  = match parseLines l1 st with
    | (st1, None) => parseLines l2 st1
    | (st1, Some e) => (st1, Some e)
    end.
Proof.
  revert st. induction l1 as [|line l1 IH]; intros st; [done|]. simpl.
  destruct (parseLine line st) as [st'|e]; [apply IH | done].
Qed.

(** Blank and comment lines move neither the object nor the current
    section. *)
Lemma parseLines_blank_comment (lines : list str) (st : LoadState) :
  Forall (λ l, blankLine l ∨ commentLine l) lines →
  ∃ buffer,
    parseLines lines st
    = ({| parser := parser st; currentSection := currentSection st;
          commentBuffer := buffer |}, None).
Proof.
  intros Hall. revert st. induction Hall as [|line lines Hl _ IH]; intros st.
  - exists (commentBuffer st). by destruct st.
  - simpl. destruct Hl as [Hb|Hc].
    + rewrite parseLine_blank by done. apply IH.
    + rewrite parseLine_comment by done.
      destruct (IH {| parser := parser st; currentSection := currentSection st;
                      commentBuffer := commentBuffer st
                                       ++ [trim (substr_from 1 (trim line))] |})
        as [buffer Hb].
      by exists buffer.
Qed.

(** A line never removes a key from [data]. *)
Lemma parseLine_holdsKey (line : str) (st st' : LoadState) (section key : str) :
  parseLine line st = Ok st' →
  holdsKey (data (parser st)) section key →
  holdsKey (data (parser st')) section key.
Proof.
  intros H (keys & Hs & Hk).
  destruct (line_cases line) as [Hb|[Hc|[Hh|[[eqPos Hkv]|Hm]]]].
  - rewrite parseLine_blank in H by done. injection H as <-. by exists keys.
  - rewrite parseLine_comment in H by done. injection H as <-. by exists keys.
  - rewrite parseLine_header in H by done. injection H as <-. by exists keys.
  - rewrite (parseLine_keyValue _ eqPos) in H by done. injection H as <-. simpl.
    destruct (decide (currentSection st = section)) as [->|Hne].
    + eexists. rewrite lookup_insert_eq. split; [done|]. rewrite Hs. simpl.
      destruct (decide (keyOfLine (trim line) eqPos = key)) as [->|Hnk].
      * by rewrite lookup_insert_eq.
      * by rewrite lookup_insert_ne.
    + exists keys. by rewrite lookup_insert_ne.
  - by rewrite parseLine_malformed in H.
Qed.

Lemma parseLines_holdsKey (lines : list str) (st : LoadState) (section key : str) :
  holdsKey (data (parser st)) section key →
  holdsKey (data (parser (parseLines lines st).1)) section key.
Proof.
  revert st. induction lines as [|line lines IH]; intros st Hk; [done|]. simpl.
  destruct (parseLine line st) as [st'|e] eqn:Hp; [|done].
  apply IH. by eapply parseLine_holdsKey.
Qed.

(** C9: when the first line of the input that is neither blank nor a
    comment is a key=value line, the document after [load] has the section
    with the empty name, and that section holds the key of the line (whatever
    the later lines are, and whether or not one of them is rejected). *)
Theorem load_key_before_header
    (text : str) (p : sConfParser) (pre post : list str) (line : str) (eqPos : nat) :
  getlines newline text = pre ++ line :: post →
  Forall (λ l, blankLine l ∨ commentLine l) pre →
  keyValueLine line eqPos →
  holdsKey (data (load text p).1) [] (keyOfLine (trim line) eqPos).
Proof.
  intros Hlines Hpre Hkv. unfold load. rewrite Hlines, parseLines_app.
  destruct (parseLines_blank_comment pre (loadStart p) Hpre) as [buffer ->].
  simpl. rewrite (parseLine_keyValue _ eqPos) by done. simpl.
  match goal with |- context [parseLines post ?st] =>
    pose proof (parseLines_holdsKey post st [] (keyOfLine (trim line) eqPos)) as Hkeep;
    destruct (parseLines post st) as [st2 e2]
  end.
  simpl in *. apply Hkeep. eexists. rewrite lookup_insert_eq. split; [done|].
  by rewrite lookup_insert_eq.
Qed.

Lemma load_key_before_header_witness :
  holdsKey (data (load ("; c" ++ [newline] ++ "k = v" ++ [newline] ++ "[s]") newParser).1)
    [] "k".
Proof.
  apply (load_key_before_header _ newParser ["; c" : str] ["[s]" : str] "k = v" 2).
  - reflexivity.
  - constructor; [right; reflexivity | constructor].
  - split_and!; [discriminate | discriminate | | reflexivity].
    intros [Hh _]. discriminate Hh.
Defined.

(** C10: when [load] ends with an exception, the input splits into the
    lines before the rejected one, which were all accepted, the rejected line,
    which has no '=', and the rest; the exception is the "Invalid key-value
    pair" one for that line, and the object is left exactly as the lines
    before it made it: nothing they stored in [data] or in the comments map
    is undone. *)
Theorem load_not_atomic (text : str) (p p' : sConfParser) (e : exception) :
  load text p = (p', Some e) →
  ∃ pre bad post st,
    getlines newline text = pre ++ bad :: post
    ∧ parseLines pre (loadStart p) = (st, None)
    ∧ malformedLine bad
    ∧ e = InvalidKeyValuePair bad
    ∧ errorKind e = ErrorKind.MalformedLine
    ∧ p' = parser st.
Proof.
  unfold load.
  generalize (loadStart p) as st0. generalize (getlines newline text) as lines.
  induction lines as [|line lines IH]; intros st0 H; [done|].
  simpl in H. destruct (parseLine line st0) as [st1|e1] eqn:Hp.
  - destruct (IH st1 H) as (pre & bad & post & st & -> & Hpre & Hm & -> & Hk & ->).
    exists (line :: pre), bad, post, st. simpl. rewrite Hp. by split_and!.
  - apply parseLine_Throw_inv in Hp as [Hm ->]. simpl in H. injection H as <- <-.
    exists [], line, lines, st0. by split_and!.
Qed.

Lemma load_not_atomic_witness :
  ∃ pre bad post st,
    getlines newline ("; c" ++ [newline] ++ "[s]" ++ [newline] ++ "k = v" ++ [newline]
                      ++ "oops" ++ [newline] ++ "z = 1")
    = pre ++ bad :: post
    ∧ parseLines pre (loadStart newParser) = (st, None)
    ∧ malformedLine bad
    ∧ InvalidKeyValuePair "oops" = InvalidKeyValuePair bad
    ∧ errorKind (InvalidKeyValuePair "oops") = ErrorKind.MalformedLine
    ∧ {| data := {[ ("s" : str) := {[ ("k" : str) := ofString "v" ]} ]};
         comments := {[ ("s" : str) := ["c" : str] ]} |} = parser st.
Proof.
  apply (load_not_atomic _ newParser). vm_compute. reflexivity.
Defined.

(** ** [trim] *)

Lemma find_if_not_Forall (p : ascii → bool) (s : str) :
  Forall (λ c, p c = true) s → find_if_not p s = length s.
Proof. induction 1 as [|c s Hc _ IH]; simpl; [done|]. by rewrite Hc, IH. Qed.

Lemma find_if_not_app (p : ascii → bool) (ws s : str) :
  Forall (λ c, p c = true) ws →
  find_if_not p (ws ++ s) = length ws + find_if_not p s.
Proof. induction 1 as [|c ws Hc _ IH]; simpl; [done|]. by rewrite Hc, IH. Qed.

Lemma find_if_not_head (p : ascii → bool) (s rest : str) (c : ascii) :
  head s = Some c → p c = false → find_if_not p (s ++ rest) = 0.
Proof. destruct s as [|x s]; [done|]. simpl. intros [= ->] ->. done. Qed.

Lemma trim_spaces (ws : str) : Forall (λ c, isspace c = true) ws → trim ws = [].
Proof.
  intros Hws. unfold trim.
  rewrite (find_if_not_Forall _ ws Hws).
  rewrite (find_if_not_Forall _ (reverse ws)) by by apply Forall_reverse.
  rewrite length_reverse, Nat.sub_diag.
  by destruct (length ws <? 0) eqn:E; [apply Nat.ltb_lt in E; lia|].
Qed.

Lemma trim_spec (ws1 core ws2 : str) :
  Forall (λ c, isspace c = true) ws1 →
  Forall (λ c, isspace c = true) ws2 →
  trimmed core →
  trim (ws1 ++ core ++ ws2) = core.
Proof.
  intros H1 H2 [->|((a & Ha & Hsa) & (b & Hb & Hsb))].
  - simpl. apply trim_spaces. by apply Forall_app.
  - unfold trim.
    rewrite find_if_not_app by done.
    rewrite (find_if_not_head _ core ws2 a) by done.
    rewrite !reverse_app, <- app_assoc.
    rewrite find_if_not_app by by apply Forall_reverse.
    rewrite (find_if_not_head _ (reverse core) (reverse ws1) b)
      by (by rewrite ?head_reverse).
    rewrite length_reverse, !length_app, !Nat.add_0_r.
    assert (0 < length core) by (destruct core; [done | simpl; lia]).
    replace (length ws1 + (length core + length ws2) - length ws2)
      with (length ws1 + length core) by lia.
    replace (length ws1 <? length ws1 + length core) with true
      by (symmetry; apply Nat.ltb_lt; lia).
    rewrite drop_app_length.
    replace (length ws1 + length core - length ws1) with (length core) by lia.
    apply take_app_length.
Qed.

Lemma split_leading (s : str) :
  ∃ ws r, s = ws ++ r ∧ Forall (λ c, isspace c = true) ws
          ∧ (r = [] ∨ ∃ a, head r = Some a ∧ isspace a = false).
Proof.
  induction s as [|c s (ws & r & -> & Hws & Hr)].
  - exists [], []. split_and!; [done | constructor | by left].
  - destruct (isspace c) eqn:Hc.
    + exists (c :: ws), r. split_and!; [done | by constructor | done].
    + exists [], (c :: ws ++ r). split_and!; [done | constructor |]. right. by exists c.
Qed.

Lemma split_trailing (s : str) :
  ∃ r ws, s = r ++ ws ∧ Forall (λ c, isspace c = true) ws
          ∧ (r = [] ∨ ∃ b, last r = Some b ∧ isspace b = false).
Proof.
  destruct (split_leading (reverse s)) as (ws & r & Hs & Hws & Hr).
  exists (reverse r), (reverse ws). split_and!.
  - by rewrite <- reverse_app, <- Hs, reverse_involutive.
  - by apply Forall_reverse.
  - destruct Hr as [->|(b & Hb & Hsb)]; [by left|]. right. exists b.
    by rewrite last_reverse.
Qed.

(** Every string is white space, a trimmed core, and white space. *)
Lemma trim_decompose (s : str) :
  ∃ ws1 core ws2,
    s = ws1 ++ core ++ ws2
    ∧ Forall (λ c, isspace c = true) ws1
    ∧ Forall (λ c, isspace c = true) ws2
    ∧ trimmed core.
Proof.
  destruct (split_leading s) as (ws1 & r & -> & Hws1 & Hr).
  destruct (split_trailing r) as (core & ws2 & -> & Hws2 & Hcore).
  exists ws1, core, ws2. split_and!; try done.
  destruct Hcore as [->|Hlast]; [by left|].
  destruct Hr as [Hnil|(a & Ha & Hsa)].
  - apply app_eq_nil in Hnil as [-> _]. by left.
  - right. split; [|done]. exists a. split; [|done].
    destruct core as [|x core]; [|done].
    destruct Hlast as (b & Hb & _). done.
Qed.

Lemma trim_trimmed (s : str) : trimmed (trim s).
Proof.
  destruct (trim_decompose s) as (ws1 & core & ws2 & -> & H1 & H2 & Hc).
  by rewrite trim_spec.
Qed.

Lemma trim_id (s : str) : trimmed s → trim s = s.
Proof.
  intros Hs. rewrite <- (app_nil_r s) at 1.
  by apply (trim_spec [] s []).
Qed.

Lemma trimmed_trim (s : str) : trim s = s → trimmed s.
Proof. intros <-. apply trim_trimmed. Qed.

Lemma trim_idempotent (s : str) : trim (trim s) = trim s.
Proof. apply trim_id, trim_trimmed. Qed.

Lemma trim_app_spaces_l (ws s : str) :
  Forall (λ c, isspace c = true) ws → trim (ws ++ s) = trim s.
Proof.
  intros Hws.
  destruct (trim_decompose s) as (ws1 & core & ws2 & -> & H1 & H2 & Hc).
  rewrite (trim_spec ws1) by done.
  rewrite app_assoc. apply trim_spec; [by apply Forall_app | done | done].
Qed.

Lemma trim_app_spaces_r (s ws : str) :
  Forall (λ c, isspace c = true) ws → trim (s ++ ws) = trim s.
Proof.
  intros Hws.
  destruct (trim_decompose s) as (ws1 & core & ws2 & -> & H1 & H2 & Hc).
  rewrite (trim_spec ws1) by done.
  rewrite <- !app_assoc. apply trim_spec; [done | by apply Forall_app | done].
Qed.

(** What holds of every character of a string holds of its pieces. *)
Lemma Forall_trim (P : ascii → Prop) (s : str) : Forall P s → Forall P (trim s).
Proof.
  destruct (trim_decompose s) as (ws1 & core & ws2 & -> & H1 & H2 & Hc).
  rewrite trim_spec by done. rewrite !Forall_app. tauto.
Qed.

Lemma Forall_substr (P : ascii → Prop) (pos n : nat) (s : str) :
  Forall P s → Forall P (substr pos n s).
Proof. intros. by apply Forall_take, Forall_drop. Qed.

Lemma Forall_trimQuotes (P : ascii → Prop) (s : str) :
  Forall P s → Forall P (trimQuotes s).
Proof.
  destruct (quoted_dec s) as [[t ->]|Hn].
  - rewrite trimQuotes_quoted. rewrite Forall_cons, Forall_app. tauto.
  - by rewrite trimQuotes_unquoted.
Qed.

Lemma trim_length (s : str) : length (trim s) ≤ length s.
Proof.
  destruct (trim_decompose s) as (ws1 & core & ws2 & -> & H1 & H2 & Hc).
  rewrite trim_spec by done. rewrite !length_app. lia.
Qed.

(** A string between two characters that are not white space is
    trimmed. *)
Lemma trimmed_enclosed (a b : ascii) (s : str) :
  isspace a = false → isspace b = false → trimmed (a :: s ++ [b]).
Proof.
  intros Ha Hb. right. split; [by exists a|]. exists b.
  by rewrite last_cons_snoc.
Qed.

(** ** [find] and [getline] *)

Lemma find_None (c : ascii) (s : str) : find c s = None ↔ c ∉ s.
Proof.
  induction s as [|x s IH]; simpl.
  - split; [intros _; apply not_elem_of_nil | done].
  - destruct (decide (x = c)) as [->|Hne].
    + split; [done|]. intros Hn. exfalso. apply Hn. by left.
    + rewrite not_elem_of_cons, <- IH.
      destruct (find c s); simpl; split; try done.
      by intros [_ ?].
Qed.

Lemma find_app_first (c : ascii) (s1 s2 : str) :
  c ∉ s1 → find c (s1 ++ c :: s2) = Some (length s1).
Proof.
  induction s1 as [|x s1 IH]; simpl; intros Hn.
  - by rewrite decide_True.
  - apply not_elem_of_cons in Hn as [Hne Hn].
    rewrite decide_False by done. by rewrite IH.
Qed.

(** The text before the position [find] returns is free of the
    character. *)
Lemma find_Some_take (c : ascii) (s : str) (pos : nat) :
  find c s = Some pos → c ∉ take pos s.
Proof.
  revert pos. induction s as [|x s IH]; intros pos; simpl; [done|].
  destruct (decide (x = c)) as [->|Hne].
  - intros [= <-]. apply not_elem_of_nil.
  - destruct (find c s) as [q|]; [|done]. simpl. intros [= <-]. simpl.
    apply not_elem_of_cons. split; [done | by apply IH].
Qed.

Lemma getlines_no_delim (delim : ascii) (item : str) :
  delim ∉ item → item ≠ [] → getlines delim item = [item].
Proof.
  induction item as [|c item IH]; [done|]. intros Hn _.
  apply not_elem_of_cons in Hn as [Hne Hn]. simpl.
  rewrite decide_False by done.
  destruct item as [|c' item]; [done|]. by rewrite IH.
Qed.

Lemma getlines_app_delim (delim : ascii) (item rest : str) :
  delim ∉ item → getlines delim (item ++ delim :: rest) = item :: getlines delim rest.
Proof.
  induction item as [|c item IH]; intros Hn; simpl.
  - by rewrite decide_True.
  - apply not_elem_of_cons in Hn as [Hne Hn].
    rewrite decide_False by done. by rewrite IH.
Qed.

(** The items are pieces of the stream, without the delimiter. *)
Lemma getlines_Forall (P : ascii → Prop) (delim : ascii) (stream : str) :
  Forall P stream → Forall (Forall P) (getlines delim stream).
Proof.
  induction 1 as [|c rest Hc _ IH]; simpl; [constructor|].
  destruct (decide (c = delim)); [by repeat constructor|].
  destruct (getlines delim rest) as [|item items].
  - by repeat constructor.
  - inversion IH; subst. by repeat constructor.
Qed.

Lemma getlines_delim_free (delim : ascii) (stream : str) :
  Forall (λ item, delim ∉ item) (getlines delim stream).
Proof.
  induction stream as [|c rest IH]; simpl; [constructor|].
  destruct (decide (c = delim)) as [->|Hne].
  - constructor; [apply not_elem_of_nil | done].
  - destruct (getlines delim rest) as [|item items].
    + constructor; [|constructor]. apply not_elem_of_cons. split; [done|].
      apply not_elem_of_nil.
    + inversion IH; subst. constructor; [|done].
      apply not_elem_of_cons. by split.
Qed.

Lemma getlines_length (delim : ascii) (stream : str) :
  Forall (λ item : str, length item ≤ length stream) (getlines delim stream).
Proof.
  induction stream as [|c rest IH]; simpl; [constructor|].
  destruct (decide (c = delim)) as [->|Hne].
  - constructor; [simpl; lia|]. eapply Forall_impl; [exact IH|]. simpl. intros; lia.
  - destruct (getlines delim rest) as [|item items].
    + constructor; [simpl; lia | constructor].
    + inversion IH; subst. constructor; [simpl; lia|].
      eapply Forall_impl; [eassumption|]. simpl. intros; lia.
Qed.

(** A stream without the delimiter holds at most one item. *)
Lemma getlines_single (delim : ascii) (stream : str) :
  delim ∉ stream → length (getlines delim stream) ≤ 1.
Proof.
  intros Hn. destruct stream as [|c s]; [simpl; lia|].
  by rewrite getlines_no_delim.
Qed.

(** The lines of a text in which every line is ended by the delimiter. *)
Lemma getlines_unlines (delim : ascii) (lines : list str) :
  Forall (λ line, delim ∉ line) lines →
  getlines delim (concat ((λ line, line ++ [delim]) <$> lines)) = lines.
Proof.
  induction 1 as [|line lines Hl _ IH]; [done|].
  rewrite fmap_cons. simpl concat. rewrite <- app_assoc.
  etrans; [apply getlines_app_delim; exact Hl|]. f_equal. exact IH.
Qed.

(** ** [parseArray]: the fuel is enough *)

Lemma substr_length (pos n : nat) (s : str) : length (substr pos n s) ≤ n.
Proof. unfold substr. rewrite length_take. lia. Qed.

Lemma parseArray_fuel_enough (n m : nat) (value : str) :
  length value ≤ n → length value ≤ m →
  parseArray_fuel n value = parseArray_fuel m value.
Proof.
  revert m value. induction n as [|n IH]; intros m value Hn Hm.
  - destruct value; [|simpl in Hn; lia]. by destruct m.
  - destruct m as [|m].
    { destruct value; [done | simpl in Hm; lia]. }
    simpl. apply Forall_fmap_ext_1.
    eapply Forall_impl; [apply (getlines_length comma)|].
    intros item Hitem. simpl in Hitem.
    pose proof (substr_length 1 (length value - 2) value) as Hsub.
    pose proof (trim_length item) as Htl.
    pose proof (trimQuotes_length (trim item)) as Hql.
    destruct (isArray (trimQuotes (trim item))); [|done].
    f_equal. apply IH; lia.
Qed.

(** The body of the source function, with the recursive call on the
    function itself: no fuel is left in the equation. *)
Lemma parseArray_unfold (value : str) :
  parseArray value
  = (λ item : str,
       let trimmed := trimQuotes (trim item) in
       if isArray trimmed then ofArray (parseArray trimmed) else ofString trimmed)
    <$> getlines comma (substr 1 (length value - 2) value).
Proof.
  unfold parseArray at 1. destruct value as [|c value]; [done|].
  simpl length. cbn [parseArray_fuel]. apply Forall_fmap_ext_1.
  eapply Forall_impl; [apply (getlines_length comma)|].
  intros item Hitem. simpl in Hitem.
  pose proof (substr_length 1 (length (c :: value) - 2) (c :: value)) as Hsub.
  pose proof (trim_length item) as Htl.
  pose proof (trimQuotes_length (trim item)) as Hql.
  simpl in Hsub.
  destruct (isArray (trimQuotes (trim item))); [|done].
  f_equal. unfold parseArray. apply parseArray_fuel_enough; simpl in *; lia.
Qed.

(** ** Values: induction and the two lists of conditions *)

Lemma sConfValue_nested_ind (P : sConfValue → Prop) :
  (∀ text elements type, Forall P elements → P (SConfValue text elements type)) →
  ∀ v, P v.
Proof.
  intros H. fix IH 1. intros [text elements type]. apply H.
  induction elements as [|x elements IHl]; constructor; [apply IH | apply IHl].
Qed.

Lemma everyValue_unfold (P : bool → sConfValue → Prop) (nested : bool)
    (text : str) (elements : list sConfValue) (type : Type_.t) :
  everyValue P nested (SConfValue text elements type)
  ↔ P nested (SConfValue text elements type) ∧ Forall (everyValue P true) elements.
Proof.
  simpl. apply and_iff_compat_l.
  induction elements as [|x elements IH]; simpl.
  - split; [constructor | done].
  - rewrite Forall_cons, IH. done.
Qed.

(** ** What [saveValue] writes *)

Lemma saveElements_render (save1 : sConfValue → Result str) (elements : list sConfValue) :
  Forall (λ v, save1 v = Ok (render v)) elements →
  saveElements save1 elements = Ok (joinComma (render <$> elements)).
Proof.
  induction 1 as [|v l Hv Hl IH]; [done|].
  cbn [saveElements]. rewrite Hv. simpl mbind. unfold mbind, Result_bind at 1.
  destruct l as [|v' l]; [done|].
  fold (saveElements save1) in *. rewrite IH. done.
Qed.

Lemma saveValue_render (streamDouble : str → Result str) (nested : bool) (v : sConfValue) :
  everyValue parsedNode nested v → saveValue streamDouble v = Ok (render v).
Proof.
  revert nested. induction v as [text elements type IH] using sConfValue_nested_ind.
  intros nested [Hnode Hall]%everyValue_unfold.
  destruct type; try done.
  cbn [saveValue]. rewrite (saveElements_render _ elements); [done|].
  rewrite Forall_forall in IH, Hall |- *. intros x Hx. by apply (IH x Hx true), Hall.
Qed.

(** ** Reading an array back *)

Lemma substr_inner (a b : ascii) (s : str) :
  substr 1 (length (a :: s ++ [b]) - 2) (a :: s ++ [b]) = s.
Proof.
  unfold substr. simpl. rewrite length_app. simpl.
  replace (length s + 1 - 1) with (length s) by lia.
  by rewrite drop_0, take_app_length.
Qed.

Lemma isArray_enclosed (s : str) : isArray (lbracket :: s ++ [rbracket]) = true.
Proof.
  unfold isArray. rewrite last_cons_snoc. reflexivity.
Qed.

Lemma isArray_head (s : str) : isArray s = true → head s = Some lbracket.
Proof.
  unfold isArray. intros H. apply andb_true_iff in H as [H _].
  apply andb_true_iff in H as [_ H]. by apply bool_decide_eq_true_1 in H.
Qed.

Lemma joinComma_cons (x y : str) (rest : list str) :
  joinComma (x :: y :: rest) = x ++ comma :: space :: joinComma (y :: rest).
Proof. done. Qed.

(** The pieces of the text of a list of elements: the first text as it
    is, every later one after the space of the separator. *)
Lemma getlines_joinComma_tail (r : str) (rest : list str) :
  Forall (λ t, comma ∉ t) (r :: rest) →
  getlines comma (space :: joinComma (r :: rest)) = (space ::.) <$> (r :: rest).
Proof.
  revert r. induction rest as [|r' rest IH]; intros r Hall.
  - inversion Hall; subst. simpl joinComma. rewrite getlines_no_delim; [done| |done].
    apply not_elem_of_cons. split; [done|]. done.
  - inversion Hall; subst. rewrite joinComma_cons.
    change (space :: r ++ comma :: space :: joinComma (r' :: rest))
      with ((space :: r) ++ comma :: space :: joinComma (r' :: rest)).
    rewrite getlines_app_delim.
    + rewrite IH by done. done.
    + apply not_elem_of_cons. split; [done|]. done.
Qed.

Lemma getlines_joinComma (texts : list str) :
  Forall (λ t, comma ∉ t) texts → texts ≠ [[]] →
  getlines comma (joinComma texts)
  = match texts with
    | [] => []
    | r :: rest => r :: ((space ::.) <$> rest)
    end.
Proof.
  intros Hall Hne. destruct texts as [|r [|r' rest]]; [done| |].
  - simpl. inversion Hall; subst. apply getlines_no_delim; [done|].
    by intros ->.
  - inversion Hall; subst. rewrite joinComma_cons, getlines_app_delim by done.
    by rewrite getlines_joinComma_tail.
Qed.

Lemma trim_space_cons (s : str) : trim (space :: s) = trim s.
Proof. apply (trim_app_spaces_l [space]). by repeat constructor. Qed.

Lemma goodItem_trimmed_item (e : sConfValue) :
  goodItem e → itemValue (trimQuotes (trim (render e))) = e.
Proof.
  intros (_ & Ht & Hq & Hv & _).
  by rewrite trim_id, trimQuotes_unquoted.
Qed.

(** [parseArray] reads the text of an array of good items back as these
    items, unless the array is the empty string alone, whose text "[]" is
    that of the empty array. *)
Lemma parseArray_joinComma (elements : list sConfValue) :
  Forall goodItem elements → elements ≠ [ofString []] →
  parseArray (lbracket :: joinComma (render <$> elements) ++ [rbracket]) = elements.
Proof.
  intros Hall Hne. rewrite parseArray_unfold, substr_inner.
  rewrite getlines_joinComma.
  - destruct elements as [|e rest]; [done|].
    inversion Hall as [|?? He Hrest]; subst.
    rewrite fmap_cons. cbn [fmap list_fmap].
    fold (itemValue (trimQuotes (trim (render e)))).
    rewrite goodItem_trimmed_item by done. f_equal.
    clear Hne Hall He. induction Hrest as [|x l Hx _ IH]; [done|].
    simpl. rewrite trim_space_cons.
    fold (itemValue (trimQuotes (trim (render x)))).
    rewrite goodItem_trimmed_item by done. f_equal. apply IH.
  - apply Forall_fmap. eapply Forall_impl; [exact Hall|]. by intros e (? & _).
  - intros Heq. apply Hne.
    destruct elements as [|e [|e' rest]]; [done| |done].
    inversion Hall as [|?? He _]; subst. destruct He as (_ & _ & _ & _ & Hnil).
    f_equal. apply Hnil. by injection Heq.
Qed.

Lemma plain_not_elem (c : ascii) (s : str) :
  c ∈ reserved → Forall (λ x, x ∉ reserved) s → c ∉ s.
Proof.
  intros Hc Hall Hin. rewrite Forall_forall in Hall. by apply (Hall c Hin).
Qed.

Lemma reserved_comma : comma ∈ reserved.
Proof. unfold reserved. set_solver. Qed.
Lemma reserved_semicolon : semicolon ∈ reserved.
Proof. unfold reserved. set_solver. Qed.
Lemma reserved_lbracket : lbracket ∈ reserved.
Proof. unfold reserved. set_solver. Qed.
Lemma reserved_rbracket : rbracket ∈ reserved.
Proof. unfold reserved. set_solver. Qed.
Lemma reserved_dquote : dquote ∈ reserved.
Proof. unfold reserved. set_solver. Qed.

Create HintDb reserved.
#[local] Hint Resolve reserved_comma reserved_semicolon reserved_lbracket
  reserved_rbracket reserved_dquote : reserved.

(** A reserved character does not occur in a plain string. *)
Ltac plain_excludes :=
  lazymatch goal with
  | |- _ ∉ _ => eapply plain_not_elem; [by eauto with reserved | eassumption]
  end.

(** A decidable statement about closed terms, by evaluation. *)
Ltac by_evaluation := apply (bool_decide_unpack _); vm_compute; exact I.

Lemma not_quoted_plain (s : str) : dquote ∉ s → ¬ quoted s.
Proof. intros Hn [t ->]. apply Hn. by left. Qed.

Lemma isArray_plain (s : str) : lbracket ∉ s → isArray s = false.
Proof.
  intros Hn. destruct (isArray s) eqn:E; [|done].
  apply isArray_head in E. destruct s as [|c s]; [done|].
  injection E as ->. exfalso. apply Hn. by left.
Qed.

Lemma render_array (text : str) (elements : list sConfValue) :
  render (SConfValue text elements Type_.Array)
  = lbracket :: joinComma (render <$> elements) ++ [rbracket].
Proof. done. Qed.

(** A plain, trimmed string is a good item. *)
Lemma goodItem_string (text : str) :
  Forall (λ c, c ∉ reserved) text → trim text = text → goodItem (ofString text).
Proof.
  intros Hplain Htrim. unfold goodItem. simpl render. split_and!.
  - plain_excludes.
  - by apply trimmed_trim.
  - apply not_quoted_plain. plain_excludes.
  - unfold itemValue. rewrite isArray_plain; [done|].
    plain_excludes.
  - by intros ->.
Qed.

(** An array of at most one good item, not the empty string alone, is a
    good item. *)
Lemma goodItem_array (elements : list sConfValue) :
  Forall goodItem elements → length elements ≤ 1 → elements ≠ [ofString []] →
  goodItem (ofArray elements).
Proof.
  intros Hall Hlen Hne. unfold goodItem, ofArray. rewrite render_array. split_and!.
  - destruct elements as [|e [|e' rest]]; [| |simpl in Hlen; lia].
    + simpl. intros Hin. apply elem_of_cons in Hin as [Hin|Hin]; [done|].
      apply elem_of_cons in Hin as [Hin|Hin]; [done|]. by apply elem_of_nil in Hin.
    + inversion Hall as [|?? (Hc & _) _]; subst. simpl.
      intros Hin. apply elem_of_cons in Hin as [Hin|Hin]; [done|].
      apply elem_of_app in Hin as [Hin|Hin]; [done|].
      apply elem_of_cons in Hin as [Hin|Hin]; [done|]. by apply elem_of_nil in Hin.
  - by apply trimmed_enclosed.
  - intros [t Ht]. discriminate Ht.
  - unfold itemValue. rewrite isArray_enclosed. unfold ofArray. f_equal.
    by apply parseArray_joinComma.
  - intros Hnil. discriminate Hnil.
Qed.

(** The elements of the arrays [parseLine] stores are good items when
    their strings are plain and tidy. *)
Lemma goodItem_element (e : sConfValue) :
  everyValue parsedNode true e → everyValue plainNode true e →
  everyValue tidyNode true e → goodItem e.
Proof.
  induction e as [text elements type IH] using sConfValue_nested_ind.
  intros [Hp Hps]%everyValue_unfold [Hc Hcs]%everyValue_unfold
    [Ht Hts]%everyValue_unfold.
  unfold parsedNode, plainNode, tidyNode in Hp, Hc, Ht. simpl in Hp, Hc, Ht.
  destruct type; try done.
  - destruct Hp as [-> Hnl]. by apply goodItem_string.
  - destruct Hp as [-> Hlen]. apply goodItem_array; [|by apply Hlen|done].
    rewrite Forall_forall in IH, Hps, Hcs, Hts |- *.
    intros x Hx. by apply IH; [|apply Hps|apply Hcs|apply Hts].
Qed.

(** ** The characters of a written value *)

Lemma everyValue_impl (P Q : bool → sConfValue → Prop) (nested : bool) (v : sConfValue) :
  (∀ n x, P n x → Q n x) → everyValue P nested v → everyValue Q nested v.
Proof.
  intros HPQ. revert nested.
  induction v as [text elements type IH] using sConfValue_nested_ind.
  intros nested [Hp Hps]%everyValue_unfold. apply everyValue_unfold.
  split; [by apply HPQ|].
  rewrite Forall_forall in IH, Hps |- *. intros x Hx. by apply IH, Hps.
Qed.

Lemma joinComma_Forall (P : ascii → Prop) (texts : list str) :
  P comma → P space → Forall (Forall P) texts → Forall P (joinComma texts).
Proof.
  intros Hc Hs. induction 1 as [|t [|t' rest] Ht Hrest IH]; [constructor|done|].
  rewrite joinComma_cons. apply Forall_app. split; [done|]. by repeat constructor.
Qed.

Lemma render_Forall (P : ascii → Prop) (nested : bool) (v : sConfValue) :
  P lbracket → P rbracket → P comma → P space →
  everyValue (λ _ x, getType x = Type_.Array ∨ Forall P (stringValue x)) nested v →
  Forall P (render v).
Proof.
  intros Hl Hr Hc Hs. revert nested.
  induction v as [text elements type IH] using sConfValue_nested_ind.
  intros nested [Hnode Hall]%everyValue_unfold. simpl in Hnode.
  destruct (decide (type = Type_.Array)) as [->|Hne].
  - rewrite render_array. constructor; [done|]. apply Forall_app. split.
    + apply joinComma_Forall; [done..|]. apply Forall_fmap.
      rewrite Forall_forall in IH, Hall |- *. intros x Hx. by apply (IH x Hx true), Hall.
    + by repeat constructor.
  - destruct Hnode as [?|Hnode]; [done|]. by destruct type.
Qed.

(** The text of a stored value holds no semicolon when its strings are
    plain, and no line break. *)
Lemma render_no_semicolon (nested : bool) (v : sConfValue) :
  everyValue parsedNode nested v → everyValue plainNode nested v →
  semicolon ∉ render v.
Proof.
  intros Hp Hc.
  assert (Forall (λ c, c ≠ semicolon) (render v)) as Hall.
  { apply (render_Forall _ nested); [done..|].
    revert nested Hp Hc.
    induction v as [text elements type IH] using sConfValue_nested_ind.
    intros nested [Hp Hps]%everyValue_unfold [Hc Hcs]%everyValue_unfold.
    apply everyValue_unfold. split.
    - unfold parsedNode, plainNode in Hp, Hc. simpl in *.
      destruct type; try done; [|by left]. right.
      eapply Forall_impl; [exact Hc|]. intros c Hcr ->. apply Hcr, reserved_semicolon.
    - rewrite Forall_forall in IH, Hps, Hcs |- *.
      intros x Hx. by apply IH; [|apply Hps|apply Hcs]. }
  intros Hin. rewrite Forall_forall in Hall. by apply (Hall _ Hin).
Qed.

Lemma render_no_newline (nested : bool) (v : sConfValue) :
  everyValue parsedNode nested v → newline ∉ render v.
Proof.
  intros Hp.
  assert (Forall (λ c, c ≠ newline) (render v)) as Hall.
  { apply (render_Forall _ nested); [done..|].
    eapply everyValue_impl; [|exact Hp].
    intros n [text elements type] Hnode. unfold parsedNode in Hnode. simpl in *.
    destruct type; try done; [|by left]. right. destruct Hnode as [_ Hnl].
    rewrite Forall_forall. by intros c Hc ->. }
  intros Hin. rewrite Forall_forall in Hall. by apply (Hall _ Hin).
Qed.

(** ** Reading a stored value back from its text *)

Lemma textValue_render (v : sConfValue) :
  everyValue parsedNode false v → everyValue plainNode false v →
  everyValue tidyNode false v →
  trimmed (render v)
  ∧ textValue (render v) = v
  ∧ (getType v ≠ Type_.Array → rbracket ∉ render v).
Proof.
  destruct v as [text elements type].
  intros [Hp Hps]%everyValue_unfold [Hc Hcs]%everyValue_unfold
    [Ht Hts]%everyValue_unfold.
  unfold parsedNode, plainNode, tidyNode in Hp, Hc, Ht. simpl in Hp, Hc, Ht.
  destruct type; try done.
  - destruct Hp as [-> Hnl]. simpl render. split_and!.
    + by apply trimmed_trim.
    + unfold textValue. rewrite isArray_plain by plain_excludes.
      rewrite trimQuotes_unquoted; [done|].
      apply not_quoted_plain. plain_excludes.
    + intros _. plain_excludes.
  - destruct Hp as [-> _]. rewrite render_array. split_and!.
    + by apply trimmed_enclosed.
    + unfold textValue. rewrite isArray_enclosed. unfold ofArray. f_equal.
      apply parseArray_joinComma; [|done].
      rewrite Forall_forall in Hps, Hcs, Hts |- *.
      intros x Hx. by apply goodItem_element; [apply Hps|apply Hcs|apply Hts].
    + done.
Qed.

(** ** The lines [save] writes, read by [parseLine] *)

(** A string that is its own normal form is trimmed. *)
Lemma normal_form_trim (s : str) : trimQuotes (trim s) = s → trim s = s.
Proof.
  intros Hn.
  pose proof (trimQuotes_length (trim s)) as Hq. rewrite Hn in Hq.
  destruct (trim_decompose s) as (ws1 & core & ws2 & -> & H1 & H2 & Hc).
  rewrite trim_spec in Hq |- * by done.
  rewrite !length_app in Hq.
  destruct ws1; [|simpl in Hq; lia]. destruct ws2; [|simpl in Hq; lia].
  by rewrite app_nil_r.
Qed.

Lemma normal_form_trimQuotes (s : str) : trimQuotes (trim s) = s → trimQuotes s = s.
Proof. intros Hn. pose proof (normal_form_trim s Hn) as Ht. by rewrite Ht in Hn. Qed.

Lemma parseLine_saved_comment (comment : str) (st : LoadState) :
  trim comment = comment →
  parseLine (semicolon :: space :: comment) st
  = Ok {| parser := parser st;
          currentSection := currentSection st;
          commentBuffer := commentBuffer st ++ [comment] |}.
Proof.
  intros Htrim.
  assert (trim (semicolon :: space :: comment) = semicolon :: trim (space :: comment)
          ∨ trim (semicolon :: space :: comment) = semicolon :: space :: comment)
    as Hline.
  { destruct (trimmed_trim _ Htrim) as [->|[_ (b & Hb & Hsb)]]; [by left|]. right.
    apply trim_id. right. split; [by exists semicolon|]. exists b. split; [|done].
    destruct comment as [|c comment]; [done|]. by rewrite !last_cons_cons. }
  rewrite parseLine_comment.
  - do 3 f_equal.
    destruct Hline as [->| ->]; unfold substr_from; simpl drop; rewrite ?drop_0.
    + rewrite trim_idempotent. by rewrite trim_space_cons, Htrim.
    + by rewrite trim_space_cons, Htrim.
  - unfold commentLine. by destruct Hline as [->| ->].
Qed.

Lemma parseLine_saved_header (name : str) (st : LoadState) :
  trimQuotes (trim name) = name →
  parseLine (lbracket :: name ++ [rbracket]) st
  = Ok {| parser :=
            {| data := data (parser st);
               comments :=
                 <[name := default [] (comments (parser st) !! name) ++ commentBuffer st]>
                   (comments (parser st)) |};
          currentSection := name;
          commentBuffer := [] |}.
Proof.
  intros Hn.
  assert (trim (lbracket :: name ++ [rbracket]) = lbracket :: name ++ [rbracket]) as Ht
    by by apply trim_id, trimmed_enclosed.
  assert (sectionOfLine (lbracket :: name ++ [rbracket]) = name) as Hs
    by (unfold sectionOfLine; by rewrite substr_inner).
  rewrite parseLine_header.
  - by rewrite Ht, Hs.
  - unfold headerLine. rewrite Ht. split; [done | apply last_cons_snoc].
Qed.

(** The trimmed form of "key = text": white space remains around '='
    only on a side that is not empty. *)
Lemma saved_pair_core (key text : str) :
  trimmed key → trimmed text →
  ∃ K T,
    trim (key ++ space :: equals :: space :: text) = K ++ equals :: T
    ∧ trim K = key
    ∧ trim T = text
    ∧ (∀ c, c ∈ K → c ∈ key ∨ c = space)
    ∧ head (K ++ equals :: T) = match key with [] => Some equals | c :: _ => Some c end
    ∧ last (K ++ equals :: T) = match last text with None => Some equals | Some b => Some b end.
Proof.
  intros Hk Ht.
  assert (Forall (λ c, isspace c = true) [space]) as Hsp by by repeat constructor.
  destruct key as [|k0 key]; destruct text as [|t0 text].
  - exists [], []. split_and!; try done. intros c Hc. by apply elem_of_nil in Hc.
  - exists [], (space :: t0 :: text).
    destruct Ht as [?|[(a' & Ha' & Hsa') (b & Hb & Hsb)]]; [done|].
    split_and!; try done.
    + simpl app. rewrite trim_space_cons. apply trim_id.
      right. split; [by exists equals|]. exists b. by rewrite !last_cons_cons.
    + rewrite trim_space_cons. apply trim_id. right.
      split; [by exists a' | by exists b].
    + intros c Hc. by apply elem_of_nil in Hc.
    + simpl app. rewrite !last_cons_cons. by rewrite Hb.
  - exists (k0 :: key ++ [space]), [].
    destruct Hk as [?|[(a & Ha & Hsa) (bk & Hbk & Hsbk)]]; [done|].
    split_and!; try done.
    + replace ((k0 :: key) ++ space :: equals :: [space])
        with ([] ++ ((k0 :: key ++ [space]) ++ [equals]) ++ [space])
        by (simpl; by rewrite <- !app_assoc).
      apply trim_spec; [constructor|done|]. right. split; [by exists a|].
      exists equals. by rewrite last_snoc.
    + rewrite app_comm_cons, trim_app_spaces_r by done. apply trim_id. right.
      split; [by exists a | by exists bk].
    + intros c Hc. rewrite app_comm_cons in Hc.
      apply elem_of_app in Hc as [Hc|Hc]; [by left|]. right.
      by apply list_elem_of_singleton in Hc.
    + rewrite app_comm_cons. by rewrite last_snoc.
  - exists (k0 :: key ++ [space]), (space :: t0 :: text).
    destruct Hk as [?|[(a & Ha & Hsa) (bk & Hbk & Hsbk)]]; [done|].
    destruct Ht as [?|[(a' & Ha' & Hsa') (b & Hb & Hsb)]]; [done|].
    split_and!; try done.
    + replace ((k0 :: key ++ [space]) ++ equals :: space :: t0 :: text)
        with ((k0 :: key) ++ space :: equals :: space :: t0 :: text)
        by (simpl; by rewrite <- !app_assoc).
      apply trim_id. right. split; [by exists a|]. exists b.
      rewrite last_app. simpl app. rewrite !last_cons_cons. by rewrite Hb.
    + rewrite app_comm_cons, trim_app_spaces_r by done. apply trim_id. right.
      split; [by exists a | by exists bk].
    + rewrite trim_space_cons. apply trim_id. right.
      split; [by exists a' | by exists b].
    + intros c Hc. rewrite app_comm_cons in Hc.
      apply elem_of_app in Hc as [Hc|Hc]; [by left|]. right.
      by apply list_elem_of_singleton in Hc.
    + rewrite last_app. rewrite !last_cons_cons. by rewrite Hb.
Qed.

Lemma parseLine_saved_pair (key text : str) (st : LoadState) :
  trimQuotes (trim key) = key →
  head key ≠ Some semicolon →
  equals ∉ key →
  (head key = Some lbracket → rbracket ∉ text) →
  trimmed text →
  semicolon ∉ text →
  parseLine (key ++ space :: equals :: space :: text) st
  = Ok {| parser :=
            {| data :=
                 <[currentSection st :=
                     <[key := textValue text]>
                       (default ∅ (data (parser st) !! currentSection st))]>
                   (data (parser st));
               comments := comments (parser st) |};
          currentSection := currentSection st;
          commentBuffer := [] |}.
Proof.
  intros Hnorm Hsemi Heq Hbr Htext Hnosemi.
  pose proof (trimmed_trim _ (normal_form_trim _ Hnorm)) as Hkey.
  destruct (saved_pair_core key text Hkey Htext)
    as (K & T & Hline & HK & HT & HKin & Hhead & Hlast).
  assert (equals ∉ K) as HeqK.
  { intros Hin. destruct (HKin _ Hin) as [?|?]; done. }
  assert (keyValueLine (key ++ space :: equals :: space :: text) (length K)) as Hkv.
  { unfold keyValueLine, headerLine. rewrite Hline, Hhead, Hlast. split_and!.
    - by destruct K.
    - destruct key as [|c key]; [done|]. intros [= ->]. by apply Hsemi.
    - intros [Hh Hl]. destruct key as [|c key]; [done|]. injection Hh as ->.
      destruct (last text) as [b|] eqn:Hb; [|done]. injection Hl as ->.
      apply Hbr; [done|]. by apply last_Some_elem_of.
    - by apply find_app_first. }
  rewrite (parseLine_keyValue _ (length K)) by done. rewrite Hline.
  assert (keyOfLine (K ++ equals :: T) (length K) = key) as ->.
  { unfold keyOfLine, substr. rewrite drop_0, take_app_length, HK.
    by apply normal_form_trimQuotes. }
  assert (valueOfLine (K ++ equals :: T) (length K) = textValue text) as ->; [|done].
  unfold valueOfLine, substr_from.
  replace (drop (length K + 1) (K ++ equals :: T)) with T.
  - rewrite HT. by rewrite (proj2 (find_None semicolon text) Hnosemi).
  - replace (K ++ equals :: T) with ((K ++ [equals]) ++ T) by by rewrite <- app_assoc.
    symmetry. apply drop_app_length'. rewrite length_app. simpl. lia.
Qed.

(** ** The text [save] writes, as lines *)

Lemma unlines_app (l1 l2 : list str) : unlines (l1 ++ l2) = unlines l1 ++ unlines l2.
Proof. unfold unlines. by rewrite fmap_app, concat_app. Qed.

Lemma saveComments_lines (p : sConfParser) (section : str) :
  saveComments p section = unlines (commentLines p section).
Proof.
  unfold saveComments, commentLines, unlines.
  destruct (comments p !! section) as [cs|]; [|done]. simpl.
  by rewrite <- list_fmap_compose.
Qed.

Lemma saveKeys_lines (streamDouble : str → Result str) (keys : list (str * sConfValue)) :
  Forall savablePair keys →
  saveKeys streamDouble keys = Ok (unlines (keyLines keys)).
Proof.
  induction 1 as [|[key v] keys Hkv _ IH]; [done|].
  destruct Hkv as (_ & _ & _ & _ & _ & Hp & _). simpl in Hp.
  cbn [saveKeys]. rewrite (saveValue_render _ false) by done.
  rewrite IH. simpl. unfold unlines. simpl. by rewrite <- !app_assoc.
Qed.

Lemma saveSections_lines (streamDouble : str → Result str) (p : sConfParser)
    (sections : list (str * list (str * sConfValue))) :
  Forall (savableSection p) sections →
  saveSections streamDouble p sections
  = Ok (unlines (concat (sectionLines p <$> sections))).
Proof.
  induction 1 as [|[section keys] sections Hs _ IH]; [done|].
  destruct Hs as (_ & _ & _ & _ & _ & Hkeys). simpl in Hkeys.
  cbn [saveSections]. rewrite saveKeys_lines by done. rewrite IH. simpl.
  f_equal. rewrite saveComments_lines. unfold sectionLines. simpl.
  rewrite !unlines_app. rewrite <- !app_assoc. f_equal.
  unfold unlines at 3. simpl. by rewrite <- !app_assoc.
Qed.

Lemma sectionLines_no_newline (p : sConfParser) (sk : str * list (str * sConfValue)) :
  savableSection p sk → Forall (λ line, newline ∉ line) (sectionLines p sk).
Proof.
  intros (Hnl & _ & Hcs & _ & _ & Hkeys). unfold sectionLines.
  apply Forall_app. split; [|apply Forall_cons; split].
  - unfold commentLines. apply Forall_fmap.
    eapply Forall_impl; [exact Hcs|]. intros c [Hc _]. simpl.
    apply not_elem_of_cons. split; [done|]. apply not_elem_of_cons. by split.
  - apply not_elem_of_cons. split; [done|]. apply not_elem_of_app. split; [done|].
    apply not_elem_of_cons. split; [done|]. apply not_elem_of_nil.
  - unfold keyLines. apply Forall_fmap.
    eapply Forall_impl; [exact Hkeys|]. intros [key v] (Hk & _ & _ & _ & _ & Hp & _).
    simpl in *. apply not_elem_of_app. split; [done|].
    apply not_elem_of_cons. split; [done|]. apply not_elem_of_cons. split; [done|].
    apply not_elem_of_cons. split; [done|]. by apply (render_no_newline false).
Qed.

Lemma savedLines_no_newline (p : sConfParser)
    (sections : list (str * list (str * sConfValue))) :
  Forall (savableSection p) sections →
  Forall (λ line, newline ∉ line) (concat (sectionLines p <$> sections)).
Proof.
  induction 1 as [|sk sections Hs _ IH]; [constructor|].
  rewrite fmap_cons. simpl concat. apply Forall_app. split; [|done].
  by apply sectionLines_no_newline.
Qed.

(** ** Reading the lines of a section back *)

Lemma parseLines_commentLines (cs : list str) (st : LoadState) :
  Forall (λ c, (newline ∉ c) ∧ trim c = c) cs →
  parseLines ((λ comment : str, semicolon :: space :: comment) <$> cs) st
  = ({| parser := parser st; currentSection := currentSection st;
        commentBuffer := commentBuffer st ++ cs |}, None).
Proof.
  intros Hall. revert st. induction Hall as [|c cs [_ Hc] _ IH]; intros st.
  - simpl. rewrite app_nil_r. by destruct st.
  - rewrite fmap_cons. cbn [parseLines]. rewrite parseLine_saved_comment by done.
    rewrite IH. simpl. by rewrite <- app_assoc.
Qed.

Lemma parseLines_keyLines (keys : list (str * sConfValue)) (st : LoadState) :
  Forall savablePair keys → commentBuffer st = [] →
  parseLines (keyLines keys) st
  = ({| parser := {| data := insertKeys (data (parser st)) (currentSection st) keys;
                     comments := comments (parser st) |};
        currentSection := currentSection st;
        commentBuffer := [] |}, None).
Proof.
  intros Hall. revert st.
  induction Hall as [|[key v] keys Hkv _ IH]; intros st Hbuf.
  - simpl. destruct st as [[d c] cs cb]. simpl in *. by subst.
  - destruct Hkv as (_ & Heq & Hnorm & Hsemi & Hbr & Hp & Hc & Ht).
    simpl in Heq, Hnorm, Hsemi, Hbr, Hp, Hc, Ht.
    destruct (textValue_render v Hp Hc Ht) as (Htr & Hval & Hrb).
    change (keyLines ((key, v) :: keys))
      with ((key ++ space :: equals :: space :: render v) :: keyLines keys).
    cbn [parseLines].
    rewrite parseLine_saved_pair; try done.
    + rewrite IH by done. simpl. by rewrite Hval.
    + intros Hh. by apply Hrb, Hbr.
    + by apply (render_no_semicolon false).
Qed.

Lemma foldl_insert_union (keys : list (str * sConfValue)) (m : gmap str sConfValue) :
  foldl (λ m kv, <[kv.1 := kv.2]> m) m keys = list_to_map (reverse keys) ∪ m.
Proof.
  revert m. induction keys as [|[k v] keys IH]; intros m; simpl.
  - by rewrite (left_id_L ∅ (∪)).
  - rewrite IH, reverse_cons, list_to_map_app. simpl.
    rewrite <- (assoc_L (∪)). f_equal.
    rewrite insert_empty. by rewrite <- insert_union_singleton_l.
Qed.

Lemma insertKeys_present (d : gmap str (gmap str sConfValue)) (section : str)
    (m : gmap str sConfValue) (keys : list (str * sConfValue)) :
  insertKeys (<[section := m]> d) section keys
  = <[section := foldl (λ m kv, <[kv.1 := kv.2]> m) m keys]> d.
Proof.
  revert m. induction keys as [|kv keys IH]; intros m; [done|].
  unfold insertKeys in *. simpl. rewrite lookup_insert_eq. simpl.
  rewrite insert_insert_eq. apply IH.
Qed.

Lemma foldl_insert_list_to_map (keys : list (str * sConfValue)) :
  NoDup keys.*1 →
  foldl (λ (m : gmap str sConfValue) kv, <[kv.1 := kv.2]> m) ∅ keys = list_to_map keys.
Proof.
  intros Hnd. rewrite foldl_insert_union, (right_id_L ∅ (∪)).
  apply list_to_map_proper.
  - by rewrite fmap_reverse, reverse_Permutation.
  - apply reverse_Permutation.
Qed.

(** In a document without the section, the assignments of a non-empty
    list of pairs with distinct keys make the section of exactly these
    pairs. *)
Lemma insertKeys_fresh (d : gmap str (gmap str sConfValue)) (section : str)
    (keys : list (str * sConfValue)) :
  d !! section = None → keys ≠ [] → NoDup keys.*1 →
  insertKeys d section keys = <[section := list_to_map keys]> d.
Proof.
  intros Hnone Hne Hnd. rewrite <- foldl_insert_list_to_map by done.
  destruct keys as [|kv keys]; [done|].
  unfold insertKeys. cbn [foldl]. rewrite Hnone.
  apply insertKeys_present.
Qed.

Lemma parseLines_sectionLines (p : sConfParser) (sk : str * list (str * sConfValue))
    (st : LoadState) :
  savableSection p sk → commentBuffer st = [] →
  parseLines (sectionLines p sk) st
  = ({| parser :=
          {| data := insertKeys (data (parser st)) sk.1 sk.2;
             comments :=
               <[sk.1 := default [] (comments (parser st) !! sk.1)
                         ++ default [] (comments p !! sk.1)]> (comments (parser st)) |};
        currentSection := sk.1;
        commentBuffer := [] |}, None).
Proof.
  intros (Hnl & Hnorm & Hcs & Hne & Hnd & Hkeys) Hbuf.
  unfold sectionLines, commentLines.
  rewrite parseLines_app, parseLines_commentLines by done.
  rewrite parseLines_app. cbn [parseLines].
  rewrite parseLine_saved_header by done. simpl.
  rewrite parseLines_keyLines by done. simpl. by rewrite Hbuf.
Qed.

(** Loading the lines of sections with distinct names into a new object
    gives one entry of [data] and one entry of the comments map for each of
    them. *)
Lemma parseLines_savedLines (p : sConfParser)
    (sections : list (str * list (str * sConfValue))) :
  Forall (savableSection p) sections → NoDup sections.*1 →
  ∃ section,
    parseLines (concat (sectionLines p <$> sections)) (loadStart newParser)
    = ({| parser := {| data := list_to_map (sectionEntry <$> sections);
                       comments := list_to_map (commentEntry p <$> sections) |};
          currentSection := section;
          commentBuffer := [] |}, None).
Proof.
  induction sections as [|sk sections IH] using rev_ind; intros Hall Hnd.
  - by exists [].
  - apply Forall_app in Hall as [Hall Hsk]. inversion Hsk as [|?? Hs _]; subst.
    rewrite fmap_app in Hnd. apply NoDup_app in Hnd as (Hnd & Hfresh & _).
    assert (sk.1 ∉ sections.*1) as Hnew.
    { intros Hin. apply (Hfresh _ Hin). simpl. by left. }
    destruct (IH Hall Hnd) as [section IHeq].
    exists sk.1. rewrite fmap_app, concat_app, parseLines_app, IHeq.
    simpl concat. rewrite app_nil_r.
    rewrite parseLines_sectionLines by done. simpl.
    destruct Hs as (_ & _ & _ & Hne & Hndk & _).
    assert ((sectionEntry <$> sections).*1 = sections.*1) as Hfst1
      by (rewrite <- list_fmap_compose; done).
    assert ((commentEntry p <$> sections).*1 = sections.*1) as Hfst2
      by (rewrite <- list_fmap_compose; done).
    rewrite insertKeys_fresh; [|by apply not_elem_of_list_to_map_1; rewrite Hfst1|done..].
    rewrite (not_elem_of_list_to_map_1 (commentEntry p <$> sections))
      by by rewrite Hfst2.
    assert (list_to_map (sectionEntry <$> sections ++ [sk])
            =@{gmap str (gmap str sConfValue)}
            <[sk.1 := list_to_map sk.2]> (list_to_map (sectionEntry <$> sections))) as ->.
    { rewrite fmap_app. apply (list_to_map_snoc (sectionEntry <$> sections)).
      by rewrite Hfst1. }
    assert (list_to_map (commentEntry p <$> sections ++ [sk])
            =@{gmap str (list str)}
            <[sk.1 := default [] (comments p !! sk.1)]>
              (list_to_map (commentEntry p <$> sections))) as ->.
    { rewrite fmap_app. apply (list_to_map_snoc (commentEntry p <$> sections)).
      by rewrite Hfst2. }
    done.
Qed.

(** ** An iteration of a parsed, plain and tidy document *)

Lemma savableSection_of_entry (p : sConfParser) (sk : str * list (str * sConfValue))
    (tk : str * gmap str sConfValue) :
  parsedDocument p → plainDocument p → tidyDocument p →
  data p !! tk.1 = Some tk.2 →
  sk.1 = tk.1 → iteration tk.2 sk.2 →
  savableSection p sk ∧ sectionEntry sk = tk.
Proof.
  intros [Hpd Hpc] Hplain Htidy Hdata Hname Hperm. unfold iteration in Hperm.
  destruct (Hpd _ _ Hdata) as (Hnl & Hne & Hkeys).
  destruct (Htidy _ _ Hdata) as (Hnorm & Htkeys).
  assert (NoDup sk.2.*1) as Hnd.
  { rewrite Hperm. apply NoDup_fst_map_to_list. }
  split.
  - unfold savableSection. rewrite Hname. split_and!; try done.
    + destruct (comments p !! tk.1) as [cs|] eqn:Hcs; [by apply (Hpc tk.1)|constructor].
    + intros Hnil. rewrite Hnil in Hperm. symmetry in Hperm.
      apply Permutation_nil_r, map_to_list_empty_iff in Hperm. done.
    + rewrite Forall_forall. intros [key v] Hin. rewrite Hperm in Hin.
      apply elem_of_map_to_list in Hin.
      destruct (Hkeys _ _ Hin) as (Hknl & Hkeq & Hparsed).
      destruct (Htkeys _ _ Hin) as (Hknorm & Hksemi & Hkbr & Hktidy).
      unfold savablePair. simpl. split_and!; try done.
      by apply (Hplain tk.1 tk.2 key).
  - unfold sectionEntry. rewrite Hname. destruct tk as [name keys]. simpl in *.
    f_equal. rewrite (list_to_map_proper sk.2 (map_to_list keys)) by done.
    apply list_to_map_to_list.
Qed.

Lemma docIteration_savable (p : sConfParser)
    (sections : list (str * list (str * sConfValue))) :
  docIteration p sections →
  parsedDocument p → plainDocument p → tidyDocument p →
  Forall (savableSection p) sections
  ∧ NoDup sections.*1
  ∧ list_to_map (sectionEntry <$> sections) = data p
  ∧ ∀ s, (list_to_map (commentEntry p <$> sections) : gmap str (list str)) !! s
         = match data p !! s with
           | Some _ => Some (default [] (comments p !! s))
           | None => None
           end.
Proof.
  intros (top & Htop & HF2) Hparsed Hplain Htidy. unfold iteration in Htop.
  assert (Forall (λ tk, data p !! tk.1 = Some tk.2) top) as Hdata.
  { rewrite Forall_forall. intros [s keys] Hin. rewrite Htop in Hin.
    by apply elem_of_map_to_list in Hin. }
  assert (NoDup top.*1) as Hndtop.
  { rewrite Htop. apply NoDup_fst_map_to_list. }
  assert (Forall (savableSection p) sections ∧ sectionEntry <$> sections = top)
    as [Hsav Hentries].
  { clear Htop Hndtop. induction HF2 as [|sk tk sections top [Hname Hperm] _ IH].
    - by split.
    - inversion Hdata as [|?? Htk Hrest]; subst.
      destruct (savableSection_of_entry p sk tk) as [Hs He]; try done.
      destruct (IH Hrest) as [Hss Hes].
      split; [by constructor|]. rewrite fmap_cons. by rewrite He, Hes. }
  assert (sections.*1 = top.*1) as Hnames.
  { rewrite <- Hentries. rewrite <- list_fmap_compose. done. }
  assert ((commentEntry p <$> sections).*1 = sections.*1) as Hcfst
    by (rewrite <- list_fmap_compose; done).
  split_and!.
  - done.
  - by rewrite Hnames.
  - rewrite Hentries. rewrite (list_to_map_proper top (map_to_list (data p))) by done.
    apply list_to_map_to_list.
  - intros s. destruct (data p !! s) as [keys|] eqn:Hs.
    + assert (s ∈ sections.*1) as Hin.
      { rewrite Hnames. apply list_elem_of_fmap. exists (s, keys). split; [done|].
        rewrite Htop. by apply elem_of_map_to_list. }
      apply list_elem_of_fmap in Hin as (sk & -> & Hsk).
      apply elem_of_list_to_map_1; [by rewrite Hcfst, Hnames|].
      apply list_elem_of_fmap. by exists sk.
    + apply not_elem_of_list_to_map_1. rewrite Hcfst, Hnames.
      intros Hin. apply list_elem_of_fmap in Hin as ([s' keys] & -> & Hin).
      rewrite Htop in Hin. apply elem_of_map_to_list in Hin. simpl in Hs. congruence.
Qed.

(** ** What [load] stores *)

Lemma not_elem_of_Forall (c : ascii) (s : str) : c ∉ s ↔ Forall (λ x, x ≠ c) s.
Proof.
  rewrite Forall_forall. split.
  - intros Hn x Hx ->. done.
  - intros Hall Hin. by apply (Hall c Hin).
Qed.

Lemma not_elem_of_trim (c : ascii) (s : str) : c ∉ s → c ∉ trim s.
Proof. rewrite !not_elem_of_Forall. apply Forall_trim. Qed.

Lemma not_elem_of_trimQuotes (c : ascii) (s : str) : c ∉ s → c ∉ trimQuotes s.
Proof. rewrite !not_elem_of_Forall. apply Forall_trimQuotes. Qed.

Lemma not_elem_of_substr (c : ascii) (pos n : nat) (s : str) : c ∉ s → c ∉ substr pos n s.
Proof. rewrite !not_elem_of_Forall. apply Forall_substr. Qed.

Lemma not_elem_of_substr_from (c : ascii) (pos : nat) (s : str) :
  c ∉ s → c ∉ substr_from pos s.
Proof. rewrite !not_elem_of_Forall. apply Forall_drop. Qed.

(** The elements [parseArray] returns are strings and arrays without a
    line break, and the arrays among them have at most one element. *)
Lemma parseArray_parsed (n : nat) (value : str) :
  length value ≤ n → newline ∉ value →
  Forall (everyValue parsedNode true) (parseArray value).
Proof.
  revert value. induction n as [|n IH]; intros value Hlen Hnl.
  - destruct value; [|simpl in Hlen; lia]. constructor.
  - rewrite parseArray_unfold. apply Forall_fmap.
    pose proof (substr_length 1 (length value - 2) value) as Hsub.
    pose proof (getlines_length comma (substr 1 (length value - 2) value)) as Hlens.
    pose proof (getlines_delim_free comma (substr 1 (length value - 2) value)) as Hcomma.
    pose proof (getlines_Forall (λ x, x ≠ newline) comma
                  (substr 1 (length value - 2) value)) as Hnls.
    rewrite <- !not_elem_of_Forall in Hnls.
    specialize (Hnls (not_elem_of_substr _ _ _ _ Hnl)).
    rewrite Forall_forall in Hlens, Hcomma, Hnls |- *.
    intros item Hitem. simpl.
    specialize (Hlens _ Hitem). specialize (Hcomma _ Hitem).
    specialize (Hnls _ Hitem). apply not_elem_of_Forall in Hnls.
    set (t := trimQuotes (trim item)).
    assert (newline ∉ t) as Htnl by by apply not_elem_of_trimQuotes, not_elem_of_trim.
    assert (comma ∉ t) as Htc by by apply not_elem_of_trimQuotes, not_elem_of_trim.
    assert (length t ≤ n) as Htlen.
    { pose proof (trim_length item). pose proof (trimQuotes_length (trim item)).
      unfold t. simpl in Hlens. lia. }
    destruct (isArray t).
    + unfold ofArray. apply everyValue_unfold. split; [|by apply IH].
      unfold parsedNode. simpl. split; [done|]. intros _.
      rewrite parseArray_unfold, length_fmap.
      by apply getlines_single, not_elem_of_substr.
    + unfold ofString. apply everyValue_unfold. split; [|constructor].
      unfold parsedNode. by simpl.
Qed.

Lemma valueOfLine_parsed (trimmed : str) (eqPos : nat) :
  newline ∉ trimmed → everyValue parsedNode false (valueOfLine trimmed eqPos).
Proof.
  intros Hnl. unfold valueOfLine.
  set (v0 := trim (substr_from (eqPos + 1) trimmed)).
  assert (newline ∉ v0) as Hv0 by by apply not_elem_of_trim, not_elem_of_substr_from.
  set (v1 := match find semicolon v0 with
             | Some commentPos => trimQuotes (trim (substr 0 commentPos v0))
             | None => v0
             end).
  assert (newline ∉ v1) as Hv1.
  { unfold v1. destruct (find semicolon v0); [|done].
    by apply not_elem_of_trimQuotes, not_elem_of_trim, not_elem_of_substr. }
  destruct (isArray v1).
  - unfold ofArray. apply everyValue_unfold. split.
    + unfold parsedNode. by simpl.
    + by apply (parseArray_parsed (length v1)).
  - unfold ofString. apply everyValue_unfold. split; [|constructor].
    unfold parsedNode. simpl. split; [done|]. by apply not_elem_of_trimQuotes.
Qed.

Lemma keyOfLine_no_equals (trimmed : str) (eqPos : nat) :
  find equals trimmed = Some eqPos → equals ∉ keyOfLine trimmed eqPos.
Proof.
  intros Hf. unfold keyOfLine, substr. rewrite drop_0.
  by apply not_elem_of_trimQuotes, not_elem_of_trim, find_Some_take.
Qed.

Lemma parseLine_parsedState (line : str) (st st' : LoadState) :
  newline ∉ line → parseLine line st = Ok st' → parsedState st → parsedState st'.
Proof.
  intros Hnl Hp ((Hpd & Hpc) & Hcs & Hbuf).
  pose proof (not_elem_of_trim _ _ Hnl) as Htnl.
  destruct (line_cases line) as [Hb|[Hc|[Hh|[[eqPos Hkv]|Hm]]]].
  - rewrite parseLine_blank in Hp by done. injection Hp as <-. done.
  - rewrite parseLine_comment in Hp by done. injection Hp as <-.
    split_and!; try done. cbn [commentBuffer]. apply Forall_app. split; [done|].
    constructor; [|constructor]. split; [|apply trim_idempotent].
    apply not_elem_of_trim. by apply (not_elem_of_substr_from newline 1 (trim line)).
  - rewrite parseLine_header in Hp by done. injection Hp as <-.
    assert (newline ∉ sectionOfLine (trim line)) as Hsnl.
    { unfold sectionOfLine.
      by apply not_elem_of_trimQuotes, not_elem_of_trim, not_elem_of_substr. }
    split; [|by split; [|constructor]]. split; [done|]. cbn [comments parser].
    intros section cs. destruct (decide (sectionOfLine (trim line) = section)) as [<-|Hne].
    + rewrite lookup_insert_eq. intros [= <-]. apply Forall_app. split; [|done].
      destruct (comments (parser st) !! sectionOfLine (trim line)) as [cs0|] eqn:Hcs0;
        [by apply (Hpc _ _ Hcs0) | constructor].
    + rewrite lookup_insert_ne by done. apply Hpc.
  - rewrite (parseLine_keyValue _ eqPos) in Hp by done. injection Hp as <-.
    destruct Hkv as (_ & _ & _ & Hfind).
    split; [|by split; [|constructor]]. split; [|done]. cbn [data parser].
    intros section keys.
    destruct (decide (currentSection st = section)) as [<-|Hne].
    + rewrite lookup_insert_eq. intros [= <-]. split_and!; [done|apply insert_non_empty|].
      intros key v. destruct (decide (keyOfLine (trim line) eqPos = key)) as [<-|Hnk].
      * rewrite lookup_insert_eq. intros [= <-]. split_and!.
        -- unfold keyOfLine.
           by apply not_elem_of_trimQuotes, not_elem_of_trim, not_elem_of_substr.
        -- by apply keyOfLine_no_equals.
        -- by apply valueOfLine_parsed.
      * rewrite lookup_insert_ne by done.
        destruct (data (parser st) !! currentSection st) as [keys0|] eqn:Hk0; simpl.
        -- intros Hl. by apply (Hpd _ _ Hk0).
        -- by rewrite lookup_empty.
    + rewrite lookup_insert_ne by done. apply Hpd.
  - by rewrite parseLine_malformed in Hp.
Qed.

Lemma parseLines_parsedState (lines : list str) (st : LoadState) :
  Forall (λ line, newline ∉ line) lines → parsedState st →
  parsedState (parseLines lines st).1.
Proof.
  intros Hall. revert st. induction Hall as [|line lines Hl _ IH]; intros st Hst; [done|].
  simpl. destruct (parseLine line st) as [st'|e] eqn:Hp; [|done].
  apply IH. by apply (parseLine_parsedState line st).
Qed.

(** Whatever the text, and whether or not the call threw, the object
    [load] leaves from a new one is a parsed document. *)
Lemma load_parsedDocument (text : str) : parsedDocument (load text newParser).1.
Proof.
  unfold load.
  pose proof (parseLines_parsedState (getlines newline text) (loadStart newParser)
                (getlines_delim_free newline text)) as H.
  destruct (parseLines (getlines newline text) (loadStart newParser)) as [st e].
  simpl in *. apply H. split_and!.
  - split; intros section x; simpl; by rewrite lookup_empty.
  - apply not_elem_of_nil.
  - constructor.
Qed.

(** ** The round trip *)

(** The enumeration [save] uses is one of the iterations. *)
Lemma save_docIteration (p : sConfParser) :
  docIteration p (prod_map id map_to_list <$> map_to_list (data p)).
Proof.
  exists (map_to_list (data p)). split; [by unfold iteration|].
  apply Forall2_fmap_l, Forall_Forall2_diag, Forall_forall.
  intros [section keys] _. split; [done | by unfold iteration].
Qed.

(** C1, as stated, fails: the value of [paddedText] is stored with its
    two spaces and contains no reserved character, the serializer writes it
    without quotes, and the second parse trims it. *)
Lemma save_load_trims_value :
  plainDocument (load paddedText newParser).1
  ∧ (data (load paddedText newParser).1 !! ([] : str)) ≫= (.!! ("k" : str))
    = Some (ofString " a ")
  ∧ ∃ out, save (λ _, Ok []) (load paddedText newParser).1 = Ok out
           ∧ (load out newParser).2 = None
           ∧ (data (load out newParser).1 !! ([] : str)) ≫= (.!! ("k" : str))
             = Some (ofString "a").
Proof.
  assert (data (load paddedText newParser).1
          = {[ ([] : str) := {[ ("k" : str) := ofString " a " ]} ]}) as Hdata
    by (vm_compute; reflexivity).
  split_and!.
  - intros section keys key v. rewrite Hdata.
    intros [<- <-]%lookup_singleton_Some [<- <-]%lookup_singleton_Some.
    apply everyValue_unfold. split; [|constructor].
    by_evaluation.
  - by vm_compute.
  - eexists. split; [vm_compute; reflexivity|]. split; by vm_compute.
Qed.

(** C1 (amended): for a document [load] made from any text, in which no
    stored string contains ',', ';', '[', ']' or the double quote, and in
    which moreover every section name and key is its own normal form under
    [trim] and [trimQuotes], no key begins with ';', no key that begins with
    '[' holds an array, no stored string begins or ends with white space and
    no array is the array of the empty string alone: whatever the order in
    which [save] iterates the sections and the keys, it returns, and loading
    the text it wrote into a new object does not throw and gives the same
    [data] (sections, keys and values), and a comments map that holds, for
    each section of [data] and for no other, the comments the section had (an
    empty list for a section without an entry). *)
Theorem load_save_load (streamDouble : str → Result str) (text : str)
    (sections : list (str * list (str * sConfValue))) :
  plainDocument (load text newParser).1 →
  tidyDocument (load text newParser).1 →
  docIteration (load text newParser).1 sections →
  ∃ out,
    saveSections streamDouble (load text newParser).1 sections = Ok out
    ∧ (load out newParser).2 = None
    ∧ data (load out newParser).1 = data (load text newParser).1
    ∧ ∀ section,
        comments (load out newParser).1 !! section
        = match data (load text newParser).1 !! section with
          | Some _ => Some (default [] (comments (load text newParser).1 !! section))
          | None => None
          end.
Proof.
  set (p := (load text newParser).1). intros Hplain Htidy Hiter.
  pose proof (load_parsedDocument text) as Hparsed. fold p in Hparsed.
  destruct (docIteration_savable p sections Hiter Hparsed Hplain Htidy)
    as (Hsav & Hnd & Hdata & Hcomments).
  exists (unlines (concat (sectionLines p <$> sections))).
  split; [by apply saveSections_lines|].
  unfold load at 1 2 3. unfold unlines.
  rewrite getlines_unlines by by apply savedLines_no_newline.
  destruct (parseLines_savedLines p sections Hsav Hnd) as [section ->].
  simpl. by split_and!.
Qed.

Lemma load_save_load_witness :
  ∃ out,
    save (λ _, Ok []) (load exampleText newParser).1 = Ok out
    ∧ (load out newParser).2 = None
    ∧ data (load out newParser).1 = data (load exampleText newParser).1
    ∧ ∀ section,
        comments (load out newParser).1 !! section
        = match data (load exampleText newParser).1 !! section with
          | Some _ =>
              Some (default [] (comments (load exampleText newParser).1 !! section))
          | None => None
          end.
Proof.
  assert (data (load exampleText newParser).1
          = {[ ("settings" : str) :=
                 <[("name" : str) := ofString "Ada"]>
                   {[ ("nums" : str) :=
                        ofArray [ofString "1"; ofString "2"; ofString "3"] ]} ]})
    as Hdata by (vm_compute; reflexivity).
  apply (load_save_load (λ _, Ok []) exampleText).
  - intros section keys key v. rewrite Hdata.
    intros [<- <-]%lookup_singleton_Some Hkey.
    apply lookup_insert_Some in Hkey as [[<- <-]|[_ [<- <-]%lookup_singleton_Some]].
    + apply everyValue_unfold. split; [|constructor].
      by_evaluation.
    + apply everyValue_unfold. split; [exact I|].
      repeat constructor; by_evaluation.
  - intros section keys. rewrite Hdata.
    intros [<- <-]%lookup_singleton_Some. split; [reflexivity|].
    intros key v Hkey.
    apply lookup_insert_Some in Hkey as [[<- <-]|[_ [<- <-]%lookup_singleton_Some]].
    + split_and!; [reflexivity | discriminate | discriminate |].
      apply everyValue_unfold. split; [reflexivity | constructor].
    + split_and!; [reflexivity | discriminate | discriminate |].
      apply everyValue_unfold. split; [discriminate|].
      repeat constructor; reflexivity.
  - apply save_docIteration.
Defined.

(** Each of the further conditions of the round trip is needed: an
    array of the empty string alone is written as "[]"; a key that begins
    with ';' is written as a comment line; a key that begins with '[' and
    holds an array is written as a section header; a section name or a key
    that is not its own normal form is normalized again by the second
    parse. *)
Lemma tidy_conditions_needed :
  storedThenReloaded "k = [,]" [] "k" = (Some (ofArray [ofString []]), Some (ofArray []))
  ∧ storedThenReloaded ([dquote] ++ "; x" ++ [dquote] ++ " = 1") [] "; x"
    = (Some (ofString "1"), None)
  ∧ storedThenReloaded ([dquote] ++ "[a" ++ [dquote] ++ " = [1]") [] "[a"
    = (Some (ofArray [ofString "1"]), None)
  ∧ storedThenReloaded ("[" ++ [dquote] ++ " s " ++ [dquote] ++ "]" ++ [newline] ++ "k = v")
      " s " "k"
    = (Some (ofString "v"), None)
  ∧ storedThenReloaded ([dquote] ++ " k " ++ [dquote] ++ " = v") [] " k "
    = (Some (ofString "v"), None).
Proof. split_and!; by vm_compute. Qed.

(** ** The other cases of the serializer's switch *)

Lemma stoi_not_unsupported (text : str) : stoi text ≠ Throw UnsupportedValueType.
Proof. unfold stoi. repeat case_match; done. Qed.

Lemma saveElements_not_unsupported (save1 : sConfValue → Result str)
    (elements : list sConfValue) :
  Forall (λ v, save1 v ≠ Throw UnsupportedValueType) elements →
  saveElements save1 elements ≠ Throw UnsupportedValueType.
Proof.
  induction 1 as [|v l Hv _ IH]; [done|].
  cbn [saveElements]. destruct (save1 v) as [x|e] eqn:Hx.
  - simpl. destruct l as [|v' l]; [done|].
    fold (saveElements save1) in *.
    destruct (saveElements save1 (v' :: l)) as [r|e]; [done|].
    simpl. intros [= ->]. done.
  - simpl. intros [= ->]. done.
Qed.

(** The part of C3 that holds: a value none of whose tags is [Date] never
    takes the [default] branch (as long as writing a double does not raise
    that exception itself). *)
Lemma saveValue_supported (streamDouble : str → Result str) (nested : bool)
    (v : sConfValue) :
  (∀ text, streamDouble text ≠ Throw UnsupportedValueType) →
  everyValue (λ _ x, getType x ≠ Type_.Date) nested v →
  saveValue streamDouble v ≠ Throw UnsupportedValueType.
Proof.
  intros Hdouble. revert nested.
  induction v as [text elements type IH] using sConfValue_nested_ind.
  intros nested [Hnode Hall]%everyValue_unfold. simpl in Hnode.
  destruct type; cbn [saveValue]; try done.
  - pose proof (stoi_not_unsupported text) as Hs.
    unfold getInteger. simpl.
    destruct (stoi text) as [n|e]; [done|]. simpl. intros [= ->]. done.
  - assert (saveElements (saveValue streamDouble) elements ≠ Throw UnsupportedValueType)
      as Hel.
    { apply saveElements_not_unsupported.
      rewrite Forall_forall in IH, Hall |- *. intros x Hx. by apply (IH x Hx true), Hall. }
    destruct (saveElements (saveValue streamDouble) elements) as [r|e]; [done|].
    simpl. intros [= ->]. done.
Qed.

(** * Further properties of the document API *)

(** X1: [addSection] never throws and never replaces: the section exists
    afterwards with the keys it had (none if it is new), a second call changes
    nothing, and neither the other sections nor the comments are touched. *)
Theorem addSection_creates_once (section : str) (p : sConfParser) :
  data (addSection section p) !! trimQuotes (trim section)
  = Some (default ∅ (data p !! trimQuotes (trim section)))
  ∧ hasSection section (addSection section p) = true
  ∧ addSection section (addSection section p) = addSection section p
  ∧ comments (addSection section p) = comments p
  ∧ ∀ other, other ≠ trimQuotes (trim section) →
      data (addSection section p) !! other = data p !! other.
Proof.
  unfold addSection, hasSection.
  destruct (decide (data p !! trimQuotes (trim section) = None)) as [Hn|Hs].
  - simpl. rewrite lookup_insert_eq, Hn. split_and!; try done.
    intros other Hne. by rewrite lookup_insert_ne.
  - destruct (data p !! trimQuotes (trim section)) as [keys|] eqn:Hl; [|done].
    by split_and!.
Qed.

(** X2: After a successful [removeSection] the section and its comments are
    gone, every other section and comment entry is as before, and the same
    call again throws "Section not found". *)
Theorem removeSection_twice (section : str) (p p' : sConfParser) :
  removeSection section p = Ok p' →
  data p' !! trimQuotes section = None
  ∧ comments p' !! trimQuotes section = None
  ∧ removeSection section p' = Throw (SectionNotFound section)
  ∧ ∀ other, other ≠ trimQuotes section →
      data p' !! other = data p !! other
      ∧ comments p' !! other = comments p !! other.
Proof.
  unfold removeSection.
  destruct (data p !! trimQuotes section) as [keys|] eqn:Hl; [|done].
  intros [= <-]. simpl. rewrite !lookup_delete_eq. split_and!; try done.
  intros other Hne. by rewrite !lookup_delete_ne.
Qed.

Lemma removeSection_twice_witness :
  removeSection "s" {| data := ∅; comments := ∅ |} = Throw (SectionNotFound "s").
Proof.
  apply (removeSection_twice "s" (addSection "s" newParser)). reflexivity.
Defined.

(** X3: What [setKey] stored is what the queries see: the key exists, the two
    kind queries answer by the tag of the value, [getSection] returns the
    value under the normalized key; a later [setKey] of the same key
    replaces it; the other keys, the other sections and the comments are
    untouched. *)
Theorem setKey_then_query (section key : str) (value : sConfValue) (p p' : sConfParser) :
  setKey section key value p = Ok p' →
  hasSectionPairByKey section key p' = true
  ∧ isSectionPairArray section key p' = Ok (value_isArray value)
  ∧ isSectionPairSingleString section key p' = Ok (negb (value_isArray value))
  ∧ (∃ keys, getSection section p' = Ok keys
             ∧ keys !! trimQuotes (trim key) = Some value
             ∧ ∀ k, k ≠ trimQuotes (trim key) →
                 keys !! k = (data p !! trimQuotes (trim section)) ≫= (.!! k))
  ∧ (∀ value2, setKey section key value2 p' = setKey section key value2 p)
  ∧ comments p' = comments p
  ∧ ∀ other, other ≠ trimQuotes (trim section) → data p' !! other = data p !! other.
Proof.
  unfold setKey, hasSectionPairByKey, isSectionPairArray, isSectionPairSingleString,
    getSection.
  destruct (data p !! trimQuotes (trim section)) as [keys|] eqn:Hl; [|done].
  intros [= <-]. simpl. rewrite !lookup_insert_eq. simpl. rewrite ?lookup_insert_eq.
  split_and!; try done.
  - eexists. split; [done|]. rewrite lookup_insert_eq. split; [done|].
    intros k Hne. by rewrite lookup_insert_ne.
  - intros value2. by rewrite !insert_insert_eq.
  - intros other Hne. by rewrite lookup_insert_ne.
Qed.

Lemma setKey_then_query_witness :
  hasSectionPairByKey " s " "k" 
    {| data := {[ ("s" : str) := {[ ("k" : str) := ofArray [] ]} ]}; comments := ∅ |}
  = true.
Proof.
  apply (setKey_then_query " s " "k" (ofArray []) (addSection "s" newParser)).
  reflexivity.
Defined.

(** X4: [setKey] of a key the section did not hold, undone by
    [removeSectionPairByKey], gives the document back. *)
Theorem setKey_removeKey (section key : str) (value : sConfValue) (p p' : sConfParser) :
  hasSectionPairByKey section key p = false →
  setKey section key value p = Ok p' →
  removeSectionPairByKey section key p' = Ok p.
Proof.
  unfold setKey, hasSectionPairByKey, removeSectionPairByKey.
  destruct (data p !! trimQuotes (trim section)) as [keys|] eqn:Hl; [|done].
  intros Hk%bool_decide_eq_false_1 [= <-]. simpl.
  apply eq_None_not_Some in Hk.
  rewrite lookup_insert_eq, lookup_insert_eq. f_equal.
  rewrite insert_insert_eq, delete_insert_id by done.
  destruct p as [d c]. unfold withData. simpl in *. f_equal. by apply insert_id.
Qed.

Lemma setKey_removeKey_witness :
  removeSectionPairByKey "s" "k"
    {| data := {[ ("s" : str) := {[ ("k" : str) := ofString "v" ]} ]}; comments := ∅ |}
  = Ok (addSection "s" newParser).
Proof.
  apply (setKey_removeKey "s" "k" (ofString "v")); reflexivity.
Defined.

(** X5: [removeSectionPairByKey], undone by [setKey] of the value the key
    held, gives the document back. *)
Theorem removeKey_setKey (section key : str) (value : sConfValue) (p p' : sConfParser) :
  (data p !! trimQuotes (trim section)) ≫= (.!! trimQuotes (trim key)) = Some value →
  removeSectionPairByKey section key p = Ok p' →
  setKey section key value p' = Ok p.
Proof.
  unfold setKey, removeSectionPairByKey.
  destruct (data p !! trimQuotes (trim section)) as [keys|] eqn:Hl; [|done].
  simpl. intros Hk. rewrite Hk. intros [= <-]. simpl.
  rewrite lookup_insert_eq. f_equal.
  rewrite insert_insert_eq, insert_delete_eq.
  destruct p as [d c]. unfold withData. simpl in *. f_equal.
  rewrite (insert_id keys) by done. by apply insert_id.
Qed.

Lemma removeKey_setKey_witness :
  setKey "s" "k" (ofString "v") (addSection "s" newParser)
  = Ok {| data := {[ ("s" : str) := {[ ("k" : str) := ofString "v" ]} ]}; comments := ∅ |}.
Proof.
  apply (removeKey_setKey "s" "k" (ofString "v")
           {| data := {[ ("s" : str) := {[ ("k" : str) := ofString "v" ]} ]};
              comments := ∅ |});
    reflexivity.
Defined.

(** Both directions of "the predicate holds exactly when the operation
    returns", when it does and when it does not. *)
Ltac answer_yes :=
  split; [intros _; eauto | intros _; try apply bool_decide_eq_true_2; eauto].
Ltac answer_no :=
  split;
  [ intros H; first [discriminate H | by apply bool_decide_eq_true_1, is_Some_None in H]
  | intros [? H]; discriminate H ].

(** X6: The existence predicates never throw and tell exactly when the
    throwing operations return: [getSection] and [getSectionKeyPair] return
    the same map, and do so when [hasSection] holds; the two kind queries and
    [removeSectionPairByKey] return when [hasSectionPairByKey] holds. *)
Theorem existence_predicates_agree (section key : str) (p : sConfParser) :
  getSectionKeyPair section p = getSection section p
  ∧ (hasSection section p = true ↔ ∃ keys, getSection section p = Ok keys)
  ∧ (hasSectionPairByKey section key p = true
     ↔ ∃ b, isSectionPairArray section key p = Ok b)
  ∧ (hasSectionPairByKey section key p = true
     ↔ ∃ b, isSectionPairSingleString section key p = Ok b)
  ∧ (hasSectionPairByKey section key p = true
     ↔ ∃ p', removeSectionPairByKey section key p = Ok p').
Proof.
  unfold getSectionKeyPair, getSection, hasSection, hasSectionPairByKey,
    isSectionPairArray, isSectionPairSingleString, removeSectionPairByKey.
  destruct (data p !! trimQuotes (trim section)) as [keys|] eqn:Hl.
  - destruct (keys !! trimQuotes (trim key)) as [v|] eqn:Hk.
    + split_and!; [done | answer_yes..].
    + split_and!; [done | answer_yes | answer_no..].
  - split_and!; [done | answer_no..].
Qed.

(** X7: The two kind queries throw the same exceptions, "Section not found"
    exactly when the section is absent and "Key not found" exactly when the
    section exists without the key, both naming the normalized name; and when
    they return, their answers are opposite. *)
Theorem kind_queries_complementary (section key : str) (p : sConfParser) :
  (isSectionPairArray section key p = Throw (SectionNotFound (trimQuotes (trim section)))
   ↔ hasSection section p = false)
  ∧ (isSectionPairArray section key p = Throw (KeyNotFound (trimQuotes (trim key)))
     ↔ hasSection section p = true ∧ hasSectionPairByKey section key p = false)
  ∧ (∀ e, isSectionPairArray section key p = Throw e
          ↔ isSectionPairSingleString section key p = Throw e)
  ∧ (∀ b, isSectionPairArray section key p = Ok b
          ↔ isSectionPairSingleString section key p = Ok (negb b)).
Proof.
  unfold hasSection, hasSectionPairByKey, isSectionPairArray, isSectionPairSingleString.
  destruct (data p !! trimQuotes (trim section)) as [keys|] eqn:Hl.
  - rewrite bool_decide_eq_false, bool_decide_eq_true.
    destruct (keys !! trimQuotes (trim key)) as [v|] eqn:Hk.
    + rewrite bool_decide_eq_false. split_and!.
      * split; [done|]. intros Hn. destruct Hn. eauto.
      * split; [done|]. intros [_ Hn]. destruct Hn. eauto.
      * done.
      * intros b. split; [by intros [= <-]|]. intros [= H]. f_equal.
        by destruct (value_isArray v), b.
    + rewrite bool_decide_eq_false. split_and!.
      * split; [done|]. intros Hn. destruct Hn. eauto.
      * split; [|done]. intros _. split; [eauto|]. by intros ?%is_Some_None.
      * done.
      * done.
  - rewrite bool_decide_eq_false, bool_decide_eq_true. split_and!.
    + split; [|done]. intros _. by intros ?%is_Some_None.
    + split; [done|]. by intros [?%is_Some_None _].
    + done.
    + done.
Qed.

(** X8: [removeSectionComment] empties the comment list of the section but
    keeps its entry: afterwards [hasSectionComment] is false and
    [getSectionComment] returns the empty list if it returned before, and
    still throws if it threw; [data] and the comments of the other sections
    are untouched, and a second call changes nothing. *)
Theorem removeSectionComment_clears (section : str) (p : sConfParser) :
  hasSectionComment section (removeSectionComment section p) = false
  ∧ getSectionComment section (removeSectionComment section p)
    = match getSectionComment section p with
      | Ok _ => Ok []
      | Throw e => Throw e
      end
  ∧ data (removeSectionComment section p) = data p
  ∧ removeSectionComment section (removeSectionComment section p)
    = removeSectionComment section p
  ∧ ∀ other, other ≠ trimQuotes (trim section) →
      comments (removeSectionComment section p) !! other = comments p !! other.
Proof.
  unfold hasSectionComment, getSectionComment, removeSectionComment.
  destruct (comments p !! trimQuotes (trim section)) as [cs|] eqn:Hl; simpl.
  - rewrite !lookup_insert_eq. split_and!; try done.
    + by rewrite insert_insert_eq.
    + intros other Hne. by rewrite lookup_insert_ne.
  - rewrite !Hl. by split_and!.
Qed.

(** X9: [hasSectionComment] holds exactly when [getSectionComment] returns a
    list that is not empty. *)
Theorem hasSectionComment_iff (section : str) (p : sConfParser) :
  hasSectionComment section p = true
  ↔ ∃ cs, getSectionComment section p = Ok cs ∧ cs ≠ [].
Proof.
  unfold hasSectionComment, getSectionComment.
  destruct (comments p !! trimQuotes (trim section)) as [cs|] eqn:Hl.
  - rewrite negb_true_iff, bool_decide_eq_false. split.
    + intros Hne. by exists cs.
    + by intros (cs' & [= <-] & Hne).
  - split; [done|]. by intros (cs & ? & _).
Qed.

(** X10: Whatever the order in which the map yields its pairs, [getSections]
    returns every section name of [data] exactly once and nothing else; a
    name that is its own normal form is listed exactly when [hasSection]
    finds it. *)
Theorem getSections_each_once (p : sConfParser)
    (l : list (str * gmap str sConfValue)) :
  iteration (data p) l →
  l.*1 ≡ₚ getSections p
  ∧ NoDup l.*1
  ∧ length l.*1 = size (data p)
  ∧ (∀ name, name ∈ l.*1 ↔ is_Some (data p !! name))
  ∧ ∀ name, trimQuotes (trim name) = name →
      (name ∈ l.*1 ↔ hasSection name p = true).
Proof.
  unfold iteration, getSections, hasSection. intros Hl.
  assert (∀ name, name ∈ l.*1 ↔ is_Some (data p !! name)) as Hmem.
  { intros name. rewrite Hl, list_elem_of_fmap. split.
    - intros ([s keys] & -> & Hin). apply elem_of_map_to_list in Hin. by eexists.
    - intros [keys Hk]. exists (name, keys). split; [done|].
      by apply elem_of_map_to_list. }
  split_and!.
  - by rewrite Hl.
  - rewrite Hl. apply NoDup_fst_map_to_list.
  - rewrite Hl, length_fmap. apply length_map_to_list.
  - done.
  - intros name ->. by rewrite Hmem, bool_decide_eq_true.
Qed.

Lemma getSections_each_once_witness :
  getSections (addSection "a" (addSection "b" newParser))
  ≡ₚ getSections (addSection "a" (addSection "b" newParser)).
Proof.
  apply (getSections_each_once (addSection "a" (addSection "b" newParser))
           (map_to_list (data (addSection "a" (addSection "b" newParser))))).
  unfold iteration. reflexivity.
Defined.

(** * Further properties of the value class *)


(** ** Integers and their decimal text *)

(** One digit of the numeral: the accumulator of [std::stoi] and the one
    of the decimal numeral advance alike. *)
Ltac digit_step IH :=
  unfold digitChars;
  cbn [NilEmpty.string_of_uint list_ascii_of_string digitsValue
       Pos.of_uint_acc Pos.of_uint];
  lazymatch goal with
  | |- (if isdigit ?c then digitsValue ?a (list_ascii_of_string (NilEmpty.string_of_uint ?d))
        else _) = ?rhs =>
      change (isdigit c) with true; cbv iota; fold (digitChars d);
      rewrite <- IH; f_equal;
      let n := eval vm_compute in (Z.of_nat (nat_of_ascii c)) in
      change (Z.of_nat (nat_of_ascii c)) with n; lia
  end.

Lemma digitsValue_acc (d : Decimal.uint) (acc : positive) :
  digitsValue (Z.pos acc) (digitChars d) = Z.pos (Pos.of_uint_acc d acc).
Proof.
  revert acc. induction d as [|d IH|d IH|d IH|d IH|d IH|d IH|d IH|d IH|d IH|d IH];
    intros acc; [done|digit_step IH..].
Qed.

Lemma digitsValue_of_uint (d : Decimal.uint) :
  digitsValue 0 (digitChars d) = Z.of_N (Pos.of_uint d).
Proof.
  induction d as [|d IH|d IH|d IH|d IH|d IH|d IH|d IH|d IH|d IH|d IH]; [done|..].
  - unfold digitChars. cbn [NilEmpty.string_of_uint list_ascii_of_string digitsValue
                             Pos.of_uint].
    fold (digitChars d). exact IH.
  - unfold digitChars. cbn [NilEmpty.string_of_uint list_ascii_of_string digitsValue
                             Pos.of_uint].
    fold (digitChars d). apply (digitsValue_acc d 1).
  - apply (digitsValue_acc d 2).
  - apply (digitsValue_acc d 3).
  - apply (digitsValue_acc d 4).
  - apply (digitsValue_acc d 5).
  - apply (digitsValue_acc d 6).
  - apply (digitsValue_acc d 7).
  - apply (digitsValue_acc d 8).
  - apply (digitsValue_acc d 9).
Qed.

Lemma stoi_digitChars (d : Decimal.uint) :
  d ≠ Decimal.Nil →
  stoi (digitChars d)
  = (if (INT_MIN <=? digitsValue 0 (digitChars d))%Z
        && (digitsValue 0 (digitChars d) <=? INT_MAX)%Z
     then Ok (digitsValue 0 (digitChars d)) else Throw StdOutOfRange)
  ∧ stoi ("-"%char :: digitChars d)
    = (if (INT_MIN <=? - digitsValue 0 (digitChars d))%Z
          && (- digitsValue 0 (digitChars d) <=? INT_MAX)%Z
       then Ok (- digitsValue 0 (digitChars d))%Z else Throw StdOutOfRange).
Proof. by destruct d. Qed.

Lemma to_string_pos (p : positive) : to_string (Z.pos p) = digitChars (Pos.to_uint p).
Proof.
  unfold to_string, digitChars. simpl.
  pose proof (DecimalPos.Unsigned.to_uint_nonnil p) as Hn.
  by destruct (Pos.to_uint p).
Qed.

Lemma to_string_neg (p : positive) :
  to_string (Z.neg p) = "-"%char :: digitChars (Pos.to_uint p).
Proof.
  unfold to_string, digitChars. simpl.
  pose proof (DecimalPos.Unsigned.to_uint_nonnil p) as Hn.
  by destruct (Pos.to_uint p).
Qed.

Lemma stoi_to_string (n : Z) :
  (INT_MIN ≤ n ≤ INT_MAX)%Z → stoi (to_string n) = Ok n.
Proof.
  intros Hrange. destruct n as [|p|p].
  - reflexivity.
  - rewrite to_string_pos.
    destruct (stoi_digitChars (Pos.to_uint p)) as [-> _];
      [apply DecimalPos.Unsigned.to_uint_nonnil|].
    rewrite digitsValue_of_uint, DecimalPos.Unsigned.of_to. simpl Z.of_N.
    by rewrite (proj2 (Z.leb_le _ _) (proj1 Hrange)), (proj2 (Z.leb_le _ _) (proj2 Hrange)).
  - rewrite to_string_neg.
    destruct (stoi_digitChars (Pos.to_uint p)) as [_ ->];
      [apply DecimalPos.Unsigned.to_uint_nonnil|].
    rewrite digitsValue_of_uint, DecimalPos.Unsigned.of_to. simpl Z.of_N.
    change (- Z.pos p)%Z with (Z.neg p).
    by rewrite (proj2 (Z.leb_le _ _) (proj1 Hrange)), (proj2 (Z.leb_le _ _) (proj2 Hrange)).
Qed.


(** ** The two regular expressions *)

Lemma digits_no_dot (r : str) : forallb isdigit r = true → find "."%char r = None.
Proof.
  induction r as [|c r IH]; [done|]. simpl. intros [Hc Hr]%andb_true_iff.
  destruct (decide (c = "."%char)) as [->|_]; [done|]. by rewrite IH.
Qed.

Lemma digitChars_digits (d : Decimal.uint) : forallb isdigit (digitChars d) = true.
Proof.
  induction d as [|d IH|d IH|d IH|d IH|d IH|d IH|d IH|d IH|d IH|d IH]; [done|..];
    unfold digitChars;
    cbn [NilEmpty.string_of_uint list_ascii_of_string forallb];
    fold (digitChars d); by rewrite IH.
Qed.

Lemma digitChars_nonempty (d : Decimal.uint) : d ≠ Decimal.Nil → digitChars d ≠ [].
Proof. by destruct d. Qed.

Lemma stoi_digits (r : str) :
  digits1 r = true →
  stoi r = (if (INT_MIN <=? digitsValue 0 r)%Z && (digitsValue 0 r <=? INT_MAX)%Z
            then Ok (digitsValue 0 r) else Throw StdOutOfRange)
  ∧ stoi ("-"%char :: r)
    = (if (INT_MIN <=? - digitsValue 0 r)%Z && (- digitsValue 0 r <=? INT_MAX)%Z
       then Ok (- digitsValue 0 r)%Z else Throw StdOutOfRange).
Proof.
  unfold digits1. intros [Hne Hd]%andb_true_iff.
  destruct r as [|c r]; [done|]. simpl in Hd. apply andb_true_iff in Hd as [Hc _].
  destruct c as [[] [] [] [] [] [] [] []]; try discriminate Hc; split; reflexivity.
Qed.

Lemma stoi_valid (r : str) :
  digits1 r = true →
  (stoi r = Throw StdOutOfRange ∨ ∃ n, stoi r = Ok n)
  ∧ (stoi ("-"%char :: r) = Throw StdOutOfRange ∨ ∃ n, stoi ("-"%char :: r) = Ok n).
Proof.
  intros [-> ->]%stoi_digits. split; case_match; eauto.
Qed.

(** X12: A text [isIntegral] accepts is also one [isNumber] accepts, and one
    [std::stoi] converts or finds out of range, but never rejects as
    invalid: [getInteger] of an [Integer] value with such a text returns an
    [int] or throws [std::out_of_range]. *)
Theorem isIntegral_accepted (s : str) :
  isIntegral s = true →
  isNumber s = true
  ∧ stoi s ≠ Throw StdInvalidArgument
  ∧ (getInteger (SConfValue s [] Type_.Integer) = Throw StdOutOfRange
     ∨ ∃ n, getInteger (SConfValue s [] Type_.Integer) = Ok n
            ∧ (INT_MIN ≤ n ≤ INT_MAX)%Z).
Proof.
  unfold isIntegral, isNumber. intros Hd.
  assert (find "."%char (withoutMinus s) = None) as ->.
  { apply digits_no_dot. unfold digits1 in Hd. by apply andb_true_iff in Hd as [_ ?]. }
  split; [done|].
  assert (stoi s = (if (INT_MIN <=? digitsValue 0 s)%Z && (digitsValue 0 s <=? INT_MAX)%Z
                    then Ok (digitsValue 0 s) else Throw StdOutOfRange)
          ∨ ∃ r, stoi s = (if (INT_MIN <=? - digitsValue 0 r)%Z
                              && (- digitsValue 0 r <=? INT_MAX)%Z
                           then Ok (- digitsValue 0 r)%Z else Throw StdOutOfRange)) as Hs.
  { destruct s as [|c r]; [done|].
    destruct (decide (c = "-"%char)) as [->|Hc].
    - right. exists r. by apply stoi_digits.
    - left. apply stoi_digits.
      destruct c as [[] [] [] [] [] [] [] []]; done. }
  change (getInteger (SConfValue s [] Type_.Integer)) with (stoi s).
  destruct Hs as [->|[r ->]]; case_match eqn:E; split; eauto; try done;
    right; eexists; (split; [done|]); apply andb_true_iff in E as [?%Z.leb_le ?%Z.leb_le]; done.
Qed.

Lemma isIntegral_accepted_witness : isNumber "-42" = true.
Proof. apply (isIntegral_accepted "-42"). reflexivity. Defined.
Lemma to_string_isIntegral (n : Z) : isIntegral (to_string n) = true.
Proof.
  destruct n as [|p|p]; [done|..].
  - rewrite to_string_pos. unfold isIntegral, digits1.
    pose proof (digitChars_digits (Pos.to_uint p)) as Hd.
    pose proof (digitChars_nonempty _ (DecimalPos.Unsigned.to_uint_nonnil p)) as Hne.
    destruct (digitChars (Pos.to_uint p)) as [|c r] eqn:E; [done|].
    assert (c ≠ "-"%char) as Hc by (intros ->; done).
    assert (withoutMinus (c :: r) = c :: r) as ->.
    { destruct c as [[] [] [] [] [] [] [] []]; done. }
    by rewrite Hd.
  - rewrite to_string_neg. unfold isIntegral, digits1. cbn [withoutMinus].
    rewrite digitChars_digits, andb_true_r.
    apply negb_true_iff, bool_decide_eq_false, digitChars_nonempty,
      DecimalPos.Unsigned.to_uint_nonnil.
Qed.

(** X13: An [int] survives its decimal text: the getter of a value made from
    an [int], by the constructor or by [setInteger], returns that [int], the
    serializer writes its decimal numeral, and [isIntegral] accepts that
    numeral. *)
Theorem getInteger_round_trip (streamDouble : str → Result str) (n : Z)
    (v : sConfValue) :
  (INT_MIN ≤ n ≤ INT_MAX)%Z →
  getInteger (ofInteger n) = Ok n
  ∧ getInteger (setInteger n v) = Ok n
  ∧ saveValue streamDouble (ofInteger n) = Ok (to_string n)
  ∧ isIntegral (to_string n) = true.
Proof.
  intros Hrange. pose proof (stoi_to_string n Hrange) as Hs.
  unfold ofInteger, setInteger, getInteger. cbn [saveValue getType stringValue].
  unfold getInteger. cbn [getType stringValue].
  split_and!; try done; [by rewrite Hs | apply to_string_isIntegral].
Qed.

Lemma getInteger_round_trip_witness :
  getInteger (ofInteger (-2147483648)) = Ok (-2147483648)%Z.
Proof.
  apply (getInteger_round_trip (λ _, Ok []) (-2147483648) (ofString [])).
  by vm_compute.
Defined.

(** * Further properties of the parser's helpers *)

(** X14: [trim] returns the part of the text between its leading and its
    trailing white space: the result is the one piece with white space only
    before and after it that neither begins nor ends with white space. It is
    empty exactly for a text of white space only. *)
Theorem trim_characterised (s core : str) :
  (trim s = core
   ↔ ∃ ws1 ws2, s = ws1 ++ core ++ ws2
                ∧ Forall (λ c, isspace c = true) ws1
                ∧ Forall (λ c, isspace c = true) ws2
                ∧ trimmed core)
  ∧ (trim s = [] ↔ Forall (λ c, isspace c = true) s)
  ∧ trim (trim s) = trim s.
Proof.
  split_and!.
  - split.
    + intros <-. destruct (trim_decompose s) as (ws1 & c & ws2 & Hs & H1 & H2 & Hc).
      assert (trim s = c) as -> by (rewrite Hs; by apply trim_spec).
      by exists ws1, ws2.
    + intros (ws1 & ws2 & -> & H1 & H2 & Hc). by apply trim_spec.
  - split; [|apply trim_spaces].
    intros He. destruct (trim_decompose s) as (ws1 & c & ws2 & -> & H1 & H2 & Hc).
    rewrite trim_spec in He by done. subst c. by apply Forall_app.
  - apply trim_idempotent.
Qed.

Lemma parseArray_itemNode (n : nat) (value : str) :
  length value ≤ n → Forall (everyValue itemNode true) (parseArray value).
Proof.
  revert value. induction n as [|n IH]; intros value Hlen.
  - destruct value; [|simpl in Hlen; lia]. constructor.
  - rewrite parseArray_unfold. apply Forall_fmap.
    pose proof (substr_length 1 (length value - 2) value) as Hsub.
    pose proof (getlines_length comma (substr 1 (length value - 2) value)) as Hlens.
    pose proof (getlines_delim_free comma (substr 1 (length value - 2) value)) as Hcomma.
    rewrite Forall_forall in Hlens, Hcomma |- *.
    intros item Hitem. simpl.
    specialize (Hlens _ Hitem). specialize (Hcomma _ Hitem).
    set (t := trimQuotes (trim item)).
    assert (comma ∉ t) as Htc by by apply not_elem_of_trimQuotes, not_elem_of_trim.
    assert (length t ≤ n) as Htlen.
    { pose proof (trim_length item). pose proof (trimQuotes_length (trim item)).
      unfold t. simpl in Hlens. lia. }
    destruct (isArray t) eqn:Harr.
    + unfold ofArray. apply everyValue_unfold. split; [|by apply IH].
      unfold itemNode. simpl. split; [done|].
      rewrite parseArray_unfold, length_fmap.
      by apply getlines_single, not_elem_of_substr.
    + unfold ofString. apply everyValue_unfold. split; [|constructor].
      unfold itemNode. by simpl.
Qed.

(** X15: Whatever the text, the elements [parseArray] returns are strings and
    arrays only; no string among them contains a comma, quoted or not, and an
    array among them, at any depth, has at most one element. *)
Theorem parseArray_elements (value : str) :
  Forall (everyValue itemNode true) (parseArray value)
  ∧ (comma ∉ value → length (parseArray value) ≤ 1)
  ∧ Forall (λ e, getInteger e = Throw (ValueIsNot Type_.Integer)
                 ∧ getBoolean e = Throw (ValueIsNot Type_.Boolean))
      (parseArray value).
Proof.
  pose proof (parseArray_itemNode (length value) value (le_n _)) as Hall.
  split_and!; [done| |].
  - intros Hc. rewrite parseArray_unfold, length_fmap.
    by apply getlines_single, not_elem_of_substr.
  - eapply Forall_impl; [exact Hall|]. intros [text elements type] He.
    apply everyValue_unfold in He as [He _]. unfold itemNode in He. simpl in He.
    by destruct type.
Qed.

(** * Further properties of [load] and [save] *)

Lemma load_fst (text : str) (p : sConfParser) :
  (load text p).1 = parser (parseLines (getlines newline text) (loadStart p)).1.
Proof. unfold load. by destruct (parseLines _ _). Qed.

Lemma load_snd (text : str) (p : sConfParser) :
  (load text p).2 = (parseLines (getlines newline text) (loadStart p)).2.
Proof. unfold load. by destruct (parseLines _ _). Qed.

Lemma parseLines_None_iff (lines : list str) (st : LoadState) :
  (parseLines lines st).2 = None ↔ Forall (λ line, ¬ malformedLine line) lines.
Proof.
  revert st. induction lines as [|line lines IH]; intros st; simpl.
  - split; [constructor | done].
  - destruct (parseLine line st) as [st'|e] eqn:Hp.
    + rewrite IH. split.
      * intros H. constructor; [|done]. intros Hm.
        by rewrite parseLine_malformed in Hp.
      * intros H. by inversion H.
    + apply parseLine_Throw_inv in Hp as [Hm _]. simpl. split; [done|].
      intros H. by inversion H.
Qed.

Lemma parseLines_outcome (lines : list str) (st1 st2 : LoadState) :
  (parseLines lines st1).2 = (parseLines lines st2).2.
Proof.
  revert st1 st2. induction lines as [|line lines IH]; intros st1 st2; simpl; [done|].
  destruct (parseLine line st1) as [st1'|e1] eqn:H1,
           (parseLine line st2) as [st2'|e2] eqn:H2.
  - apply IH.
  - apply parseLine_Throw_inv in H2 as [Hm _]. by rewrite parseLine_malformed in H1.
  - apply parseLine_Throw_inv in H1 as [Hm _]. by rewrite parseLine_malformed in H2.
  - apply parseLine_Throw_inv in H1 as [_ ->]. apply parseLine_Throw_inv in H2 as [_ ->].
    done.
Qed.

(** X16: [load] ends without an exception exactly when no line of the text is
    malformed, that is, neither blank, nor a comment, nor a header, nor with
    an '='; whether it throws, and what, depends on the text alone and not
    on what the object held before. *)
Theorem load_succeeds_iff (text : str) (p q : sConfParser) :
  ((load text p).2 = None
   ↔ Forall (λ line, ¬ malformedLine line) (getlines newline text))
  ∧ (load text p).2 = (load text q).2.
Proof.
  rewrite !load_snd. split; [apply parseLines_None_iff | apply parseLines_outcome].
Qed.

Lemma parseLine_grows (line : str) (st st' : LoadState) :
  parseLine line st = Ok st' →
  (∀ section keys, data (parser st) !! section = Some keys →
     ∃ keys', data (parser st') !! section = Some keys'
              ∧ ∀ k, is_Some (keys !! k) → is_Some (keys' !! k))
  ∧ (∀ section cs, comments (parser st) !! section = Some cs →
       ∃ more, comments (parser st') !! section = Some (cs ++ more)).
Proof.
  intros H.
  assert (∀ (cs : list str), cs = cs ++ []) as Hnil by (intros; by rewrite app_nil_r).
  destruct (line_cases line) as [Hb|[Hc|[Hh|[[eqPos Hkv]|Hm]]]].
  - rewrite parseLine_blank in H by done. injection H as <-. split; eauto.
    intros section cs Hs. exists []. by rewrite <- Hnil.
  - rewrite parseLine_comment in H by done. injection H as <-. split; eauto.
    intros section cs Hs. exists []. by rewrite <- Hnil.
  - rewrite parseLine_header in H by done. injection H as <-. split; eauto.
    intros section cs Hs. simpl.
    destruct (decide (sectionOfLine (trim line) = section)) as [->|Hne].
    + exists (commentBuffer st). by rewrite lookup_insert_eq, Hs.
    + exists []. by rewrite lookup_insert_ne, <- Hnil.
  - rewrite (parseLine_keyValue _ eqPos) in H by done. injection H as <-. simpl. split.
    + intros section keys Hs.
      destruct (decide (currentSection st = section)) as [->|Hne].
      * eexists. rewrite lookup_insert_eq. split; [done|]. rewrite Hs. simpl.
        intros k Hk. destruct (decide (keyOfLine (trim line) eqPos = k)) as [->|Hnk].
        -- by rewrite lookup_insert_eq.
        -- by rewrite lookup_insert_ne.
      * exists keys. by rewrite lookup_insert_ne.
    + intros section cs Hs. exists []. by rewrite <- Hnil.
  - by rewrite parseLine_malformed in H.
Qed.

Lemma parseLines_grows (lines : list str) (st : LoadState) :
  (∀ section keys, data (parser st) !! section = Some keys →
     ∃ keys', data (parser (parseLines lines st).1) !! section = Some keys'
              ∧ ∀ k, is_Some (keys !! k) → is_Some (keys' !! k))
  ∧ (∀ section cs, comments (parser st) !! section = Some cs →
       ∃ more, comments (parser (parseLines lines st).1) !! section = Some (cs ++ more)).
Proof.
  revert st. induction lines as [|line lines IH]; intros st; simpl.
  - split; [eauto|]. intros section cs Hs. exists []. by rewrite app_nil_r.
  - destruct (parseLine line st) as [st'|e] eqn:Hp; simpl.
    + destruct (parseLine_grows _ _ _ Hp) as [Hd Hc]. destruct (IH st') as [IHd IHc].
      split.
      * intros section keys Hs. destruct (Hd _ _ Hs) as (keys1 & Hs1 & Hk1).
        destruct (IHd _ _ Hs1) as (keys2 & Hs2 & Hk2). eauto.
      * intros section cs Hs. destruct (Hc _ _ Hs) as (more1 & Hs1).
        destruct (IHc _ _ Hs1) as (more2 & Hs2). exists (more1 ++ more2).
        by rewrite app_assoc.
    + split; [eauto|]. intros section cs Hs. exists []. by rewrite app_nil_r.
Qed.

(** X17: [load] only adds: whatever the text, and whether or not the call
    throws, every section and every key the object held is still there
    afterwards (a key possibly with a new value), and every section's
    comments are still there, possibly followed by more. *)
Theorem load_keeps_entries (text : str) (p : sConfParser) :
  (∀ section keys, data p !! section = Some keys →
     ∃ keys', data (load text p).1 !! section = Some keys'
              ∧ ∀ k, is_Some (keys !! k) → is_Some (keys' !! k))
  ∧ (∀ section cs, comments p !! section = Some cs →
       ∃ more, comments (load text p).1 !! section = Some (cs ++ more)).
Proof. rewrite load_fst. apply (parseLines_grows _ (loadStart p)). Qed.

(** X18: A text of blank lines and comment lines only leaves the object as it
    was: comments that no header follows are dropped. *)
Theorem load_comments_only (text : str) (p : sConfParser) :
  Forall (λ line, blankLine line ∨ commentLine line) (getlines newline text) →
  load text p = (p, None).
Proof.
  intros Hall. unfold load.
  destruct (parseLines_blank_comment _ (loadStart p) Hall) as [buffer ->]. done.
Qed.

Lemma load_comments_only_witness :
  load ("; a" ++ [newline] ++ "  " ++ [newline] ++ " ; b") newParser = (newParser, None).
Proof.
  apply (load_comments_only _ newParser).
  repeat (constructor; [first [by left | by right]|]). constructor.
Defined.

Lemma parseLines_headers (lines : list str) (st : LoadState) :
  Forall (λ line, blankLine line ∨ commentLine line ∨ headerLine line) lines →
  data (parser (parseLines lines st).1) = data (parser st)
  ∧ (parseLines lines st).2 = None.
Proof.
  intros Hall. revert st. induction Hall as [|line lines Hl _ IH]; intros st; [done|].
  simpl. destruct Hl as [Hb|[Hc|Hh]].
  - rewrite parseLine_blank by done. apply IH.
  - rewrite parseLine_comment by done.
    match goal with |- context [parseLines lines ?s] => by destruct (IH s) as [-> ->] end.
  - rewrite parseLine_header by done.
    match goal with |- context [parseLines lines ?s] => by destruct (IH s) as [-> ->] end.
Qed.

(** X19: A header alone does not create a section: after a text of blank
    lines, comments and headers only, the sections and their keys are as
    before, so [save] of such a text loaded into a new object writes
    nothing, and the comments stored under the headers are not written. *)
Theorem load_headers_only (streamDouble : str → Result str) (text : str)
    (p : sConfParser) :
  Forall (λ line, blankLine line ∨ commentLine line ∨ headerLine line)
    (getlines newline text) →
  data (load text p).1 = data p
  ∧ (load text p).2 = None
  ∧ getSections (load text newParser).1 = []
  ∧ save streamDouble (load text newParser).1 = Ok [].
Proof.
  intros Hall.
  assert (∀ q, data (load text q).1 = data q) as Hdata.
  { intros q. rewrite load_fst. by apply (parseLines_headers _ (loadStart q)). }
  split_and!; [done | | |].
  - rewrite load_snd. by apply parseLines_headers.
  - unfold getSections. by rewrite Hdata.
  - unfold save. by rewrite Hdata.
Qed.

Lemma load_headers_only_witness :
  save (λ _, Ok []) (load ("; c" ++ [newline] ++ "[s]" ++ [newline]) newParser).1 = Ok [].
Proof.
  apply (load_headers_only _ _ newParser).
  constructor; [right; by left|]. constructor; [right; right; by split|]. constructor.
Defined.

(** X20: [load] infers no type: every value it stores in a new object is a
    string or an array, at any depth, so the integer and the boolean getters
    throw a type mismatch on it, whatever its text. *)
Theorem load_values_untyped (text section key : str) (keys : gmap str sConfValue)
    (v : sConfValue) :
  data (load text newParser).1 !! section = Some keys →
  keys !! key = Some v →
  everyValue (λ _ x, getType x = Type_.String ∨ getType x = Type_.Array) false v
  ∧ getInteger v = Throw (ValueIsNot Type_.Integer)
  ∧ getBoolean v = Throw (ValueIsNot Type_.Boolean)
  ∧ (getString v = Ok (stringValue v) ∨ getArray v = Ok (values v)).
Proof.
  intros Hs Hk.
  destruct (load_parsedDocument text) as [Hd _].
  destruct (Hd _ _ Hs) as (_ & _ & Hv). destruct (Hv _ _ Hk) as (_ & _ & Hp).
  assert (∀ n x, parsedNode n x → getType x = Type_.String ∨ getType x = Type_.Array)
    as Himpl.
  { intros n [t e ty]. unfold parsedNode. simpl. by destruct ty; eauto. }
  split; [by eapply everyValue_impl|].
  destruct v as [t e ty]. apply everyValue_unfold in Hp as [Hp _].
  apply Himpl in Hp. simpl in Hp.
  destruct Hp as [->| ->]; split_and!; try done; [by left | by right].
Qed.

Lemma load_values_untyped_witness :
  getInteger (ofString "42") = Throw (ValueIsNot Type_.Integer).
Proof.
  apply (load_values_untyped "n = 42" [] "n" {[ ("n" : str) := ofString "42" ]}).
  - vm_compute. reflexivity.
  - vm_compute. reflexivity.
Defined.

(** ** What [save] writes after [load] *)

Lemma saveKeys_parsed (streamDouble : str → Result str) (keys : list (str * sConfValue)) :
  Forall (λ kv, everyValue parsedNode false kv.2) keys →
  saveKeys streamDouble keys = Ok (unlines (keyLines keys)).
Proof.
  induction 1 as [|[key v] keys Hp _ IH]; [done|]. simpl in Hp.
  cbn [saveKeys]. rewrite (saveValue_render _ false) by done.
  rewrite IH. simpl. unfold unlines. simpl. by rewrite <- !app_assoc.
Qed.

Lemma saveSections_parsed (streamDouble : str → Result str) (p : sConfParser)
    (sections : list (str * list (str * sConfValue))) :
  Forall (λ sk, Forall (λ kv, everyValue parsedNode false kv.2) sk.2) sections →
  saveSections streamDouble p sections
  = Ok (unlines (concat (sectionLines p <$> sections))).
Proof.
  induction 1 as [|[section keys] sections Hkeys _ IH]; [done|]. simpl in Hkeys.
  cbn [saveSections]. rewrite saveKeys_parsed by done. rewrite IH. simpl.
  f_equal. rewrite saveComments_lines. unfold sectionLines. simpl.
  rewrite !unlines_app. rewrite <- !app_assoc. f_equal.
  unfold unlines at 3. simpl. by rewrite <- !app_assoc.
Qed.

Lemma docIteration_sections (p : sConfParser)
    (sections : list (str * list (str * sConfValue))) :
  docIteration p sections →
  Forall (λ sk, ∃ keys, data p !! sk.1 = Some keys
                        ∧ ∀ key v, (key, v) ∈ sk.2 → keys !! key = Some v) sections.
Proof.
  intros (top & Htop & HF). eapply Forall2_Forall_l; [exact HF|].
  apply Forall_forall. intros [section keys] Htk sk [H1 H2]. simpl in *.
  unfold iteration in Htop, H2. rewrite Htop in Htk.
  apply elem_of_map_to_list in Htk. exists keys. rewrite H1. split; [done|].
  intros key v Hkv. rewrite H2 in Hkv. by apply elem_of_map_to_list.
Qed.

Lemma parsed_sectionLines (p : sConfParser) (sk : str * list (str * sConfValue))
    (keys : gmap str sConfValue) :
  parsedDocument p →
  data p !! sk.1 = Some keys →
  (∀ key v, (key, v) ∈ sk.2 → keys !! key = Some v) →
  Forall (λ kv, everyValue parsedNode false kv.2) sk.2
  ∧ Forall (λ line, newline ∉ line) (sectionLines p sk).
Proof.
  intros [Hd Hc] Hs Hkeys. destruct (Hd _ _ Hs) as (Hnl & _ & Hv).
  assert (Forall (λ kv, (newline ∉ kv.1) ∧ everyValue parsedNode false kv.2) sk.2) as Hall.
  { apply Forall_forall. intros [key v] Hkv. simpl.
    destruct (Hv _ _ (Hkeys _ _ Hkv)) as (? & _ & ?). done. }
  split; [eapply Forall_impl; [exact Hall|]; by intros kv [_ ?]|].
  unfold sectionLines.
  apply Forall_app. split; [|apply Forall_cons; split].
  - unfold commentLines. apply Forall_fmap.
    destruct (comments p !! sk.1) as [cs|] eqn:Hcs; [|constructor].
    eapply Forall_impl; [exact (Hc _ _ Hcs)|]. intros c [Hcn _]. simpl.
    apply not_elem_of_cons. split; [done|]. apply not_elem_of_cons. by split.
  - apply not_elem_of_cons. split; [done|]. apply not_elem_of_app. split; [done|].
    apply not_elem_of_cons. split; [done|]. apply not_elem_of_nil.
  - unfold keyLines. apply Forall_fmap.
    eapply Forall_impl; [exact Hall|]. intros [key v] [Hk Hp].
    simpl in *. apply not_elem_of_app. split; [done|].
    apply not_elem_of_cons. split; [done|]. apply not_elem_of_cons. split; [done|].
    apply not_elem_of_cons. split; [done|]. by apply (render_no_newline false).
Qed.

(** X21: After [load] into a new object, whatever the text and whether or not
    [load] threw, [save] never throws: in whatever order the maps are visited
    it writes, for each section, its comments, its header and one line for
    each pair, and these are the lines of the text written. *)
Theorem save_after_load (streamDouble : str → Result str) (text : str)
    (sections : list (str * list (str * sConfValue))) :
  docIteration (load text newParser).1 sections →
  saveSections streamDouble (load text newParser).1 sections
  = Ok (unlines (concat (sectionLines (load text newParser).1 <$> sections)))
  ∧ getlines newline (unlines (concat (sectionLines (load text newParser).1 <$> sections)))
    = concat (sectionLines (load text newParser).1 <$> sections)
  ∧ ∃ out, save streamDouble (load text newParser).1 = Ok out.
Proof.
  pose proof (load_parsedDocument text) as Hp.
  set (p := (load text newParser).1) in *.
  assert (∀ l, docIteration p l →
            Forall (λ sk, Forall (λ kv, everyValue parsedNode false kv.2) sk.2) l
            ∧ Forall (λ line, newline ∉ line) (concat (sectionLines p <$> l))) as Hall.
  { intros l Hl. apply docIteration_sections in Hl.
    induction Hl as [|sk l (keys & Hs & Hk) _ [IH1 IH2]]; [by split; constructor|].
    destruct (parsed_sectionLines p sk keys Hp Hs Hk) as [H1 H2].
    split; [by constructor|]. rewrite fmap_cons. simpl concat. by apply Forall_app. }
  intros Hit. destruct (Hall _ Hit) as [H1 H2]. split_and!.
  - by apply saveSections_parsed.
  - by apply getlines_unlines.
  - eexists. unfold save. apply saveSections_parsed.
    by apply Hall, save_docIteration.
Qed.

Lemma save_after_load_witness :
  saveSections (λ _, Ok []) (load "k = v" newParser).1 [([], [("k" : str, ofString "v")])]
  = Ok ("[]" ++ [newline] ++ "k = v" ++ [newline]).
Proof.
  apply (save_after_load (λ _, Ok []) "k = v" [([], [("k" : str, ofString "v")])]).
  assert (data (load "k = v" newParser).1
          = {[ ([] : str) := {[ ("k" : str) := ofString "v" ]} ]}) as Hdata
    by (vm_compute; reflexivity).
  exists [([] : str, {[ ("k" : str) := ofString "v" ]})]. split.
  - unfold iteration. by rewrite Hdata, map_to_list_singleton.
  - constructor; [|constructor]. split; [done|]. unfold iteration. simpl.
    by rewrite map_to_list_singleton.
Defined.

(** ** A comment after a value *)

Lemma parseLine_pair_rest (key rest : str) (st : LoadState) :
  key ≠ [] →
  trimQuotes (trim key) = key →
  head key ≠ Some semicolon →
  head key ≠ Some lbracket →
  equals ∉ key →
  parseLine (key ++ space :: equals :: rest) st
  = Ok (withPair st key
          (textValue match find semicolon (trim rest) with
                     | Some commentPos => trimQuotes (trim (substr 0 commentPos (trim rest)))
                     | None => trim rest
                     end)).
Proof.
  intros Hne Hnorm Hsemi Hbr Heq.
  pose proof (trimmed_trim _ (normal_form_trim _ Hnorm)) as Hkey.
  destruct Hkey as [?|[(a & Ha & Hsa) _]]; [done|].
  destruct (split_trailing rest) as (r & ws & -> & Hws & Hr).
  set (K := key ++ [space]).
  assert (trim (key ++ space :: equals :: r ++ ws) = K ++ equals :: r) as Hline.
  { replace (key ++ space :: equals :: r ++ ws) with ([] ++ (K ++ equals :: r) ++ ws)
      by (unfold K; simpl; by rewrite <- !app_assoc).
    apply trim_spec; [constructor | done |]. right. split.
    - exists a. split; [|done]. unfold K. by destruct key.
    - destruct Hr as [->|(b & Hb & Hsb)].
      + exists equals. split; [|done]. by rewrite last_snoc.
      + exists b. split; [|done]. rewrite last_app, last_cons, Hb. done. }
  assert (equals ∉ K) as HeqK.
  { unfold K. intros [?|Hin%list_elem_of_singleton]%elem_of_app; done. }
  assert (head (K ++ equals :: r) = Some a) as Hhead by (unfold K; by destruct key).
  assert (keyValueLine (key ++ space :: equals :: r ++ ws) (length K)) as Hkv.
  { unfold keyValueLine, headerLine. rewrite Hline, Hhead. split_and!.
    - by destruct K.
    - by rewrite <- Ha.
    - intros [Hh _]. by rewrite <- Ha in Hh.
    - by apply find_app_first. }
  rewrite (parseLine_keyValue _ (length K)) by done. rewrite Hline.
  assert (Forall (λ c, isspace c = true) [space]) as Hsp by by repeat constructor.
  assert (keyOfLine (K ++ equals :: r) (length K) = key) as ->.
  { unfold keyOfLine, substr. rewrite drop_0, take_app_length. unfold K.
    by rewrite (trim_app_spaces_r key [space] Hsp). }
  assert (drop (length K + 1) (K ++ equals :: r) = r) as Hdrop.
  { replace (K ++ equals :: r) with ((K ++ [equals]) ++ r) by by rewrite <- app_assoc.
    apply drop_app_length'. rewrite length_app. simpl. lia. }
  unfold valueOfLine, textValue, substr_from, withPair.
  by rewrite Hdrop, (trim_app_spaces_r r ws Hws).
Qed.

(** X22: A comment after a value is discarded, not stored: the line assigns
    the key and clears the comment buffer, and the comments map is as before.
    The text before the ';' loses its white space and one pair of quotes
    before the value is made of it, which takes off one pair more: with the
    comment the value is made of [trimQuotes (trim text)], without it of
    [trim text]. *)
Theorem parseLine_inline_comment (key text comment : str) (st : LoadState) :
  key ≠ [] →
  trimQuotes (trim key) = key →
  head key ≠ Some semicolon →
  head key ≠ Some lbracket →
  equals ∉ key →
  semicolon ∉ text →
  parseLine (key ++ space :: equals :: space :: text ++ semicolon :: comment) st
  = Ok (withPair st key (textValue (trimQuotes (trim text))))
  ∧ parseLine (key ++ space :: equals :: space :: text) st
    = Ok (withPair st key (textValue (trim text))).
Proof.
  intros Hne Hnorm Hsemi Hbr Heq Hnosemi. split.
  - rewrite parseLine_pair_rest by done. rewrite trim_space_cons.
    destruct (split_leading text) as (ws & t & -> & Hws & Ht).
    destruct (split_trailing comment) as (r & ws' & -> & Hws' & Hr).
    assert (semicolon ∉ t) as Hnt.
    { intros Hin. apply Hnosemi, elem_of_app. by right. }
    assert (trim ((ws ++ t) ++ semicolon :: r ++ ws') = t ++ semicolon :: r) as ->.
    { replace ((ws ++ t) ++ semicolon :: r ++ ws')
        with (ws ++ (t ++ semicolon :: r) ++ ws') by by rewrite <- !app_assoc.
      apply trim_spec; [done..|]. right. split.
      - destruct Ht as [->|(a & Ha & Hsa)]; [by exists semicolon|].
        exists a. split; [|done]. by destruct t.
      - destruct Hr as [->|(b & Hb & Hsb)].
        + exists semicolon. split; [|done]. by rewrite last_snoc.
        + exists b. split; [|done]. by rewrite last_app, last_cons, Hb. }
    rewrite find_app_first by done. unfold substr. rewrite drop_0, take_app_length.
    by rewrite trim_app_spaces_l.
  - rewrite parseLine_pair_rest by done. rewrite trim_space_cons.
    by rewrite (proj2 (find_None semicolon (trim text)) (not_elem_of_trim _ _ Hnosemi)).
Qed.

Lemma parseLine_inline_comment_witness :
  parseLine ("k = " ++ [dquote] ++ "[1]" ++ [dquote] ++ " ; c") (loadStart newParser)
  = Ok (withPair (loadStart newParser) "k" (ofArray [ofString "1"]))
  ∧ parseLine ("k = " ++ [dquote] ++ "[1]" ++ [dquote] ++ " ") (loadStart newParser)
    = Ok (withPair (loadStart newParser) "k" (ofString "[1]")).
Proof.
  apply (parseLine_inline_comment "k" ([dquote] ++ "[1]" ++ [dquote] ++ " ") " c"
           (loadStart newParser));
    [discriminate | reflexivity | discriminate | discriminate
    | by_evaluation | by_evaluation].
Defined.

(** ** Arrays of plain strings, and empty sections *)

(** X23: An array of strings without reserved characters and without white
    space at their ends is written as its texts between brackets, separated
    by ", ", and read back as the same array, by [parseArray] and by the
    value branch of [parseLine]; the array of the empty string alone is the
    exception. *)
Theorem array_of_strings_round_trip (streamDouble : str → Result str)
    (texts : list str) :
  Forall (λ t, Forall (λ c, c ∉ reserved) t ∧ trim t = t) texts →
  texts ≠ [[]] →
  saveValue streamDouble (ofArray (ofString <$> texts))
  = Ok (lbracket :: joinComma texts ++ [rbracket])
  ∧ isArray (lbracket :: joinComma texts ++ [rbracket]) = true
  ∧ parseArray (lbracket :: joinComma texts ++ [rbracket]) = ofString <$> texts
  ∧ textValue (lbracket :: joinComma texts ++ [rbracket]) = ofArray (ofString <$> texts).
Proof.
  intros Hall Hne.
  assert (render <$> (ofString <$> texts) = texts) as Hr.
  { rewrite <- list_fmap_compose. clear. induction texts as [|t texts IH]; [done|].
    rewrite fmap_cons, IH. done. }
  assert (parseArray (lbracket :: joinComma texts ++ [rbracket]) = ofString <$> texts)
    as Hparse.
  { rewrite <- Hr at 1. apply parseArray_joinComma.
    - apply Forall_fmap. eapply Forall_impl; [exact Hall|]. intros t [Hp Ht].
      by apply goodItem_string.
    - intros He. apply Hne. destruct texts as [|t [|??]]; try done.
      by injection He as ->. }
  split_and!.
  - unfold ofArray. cbn [saveValue].
    rewrite (saveElements_render (saveValue streamDouble)).
    + by rewrite Hr.
    + apply Forall_fmap, Forall_forall. by intros t _.
  - apply isArray_enclosed.
  - done.
  - unfold textValue. by rewrite isArray_enclosed, Hparse.
Qed.

Lemma array_of_strings_round_trip_witness :
  parseArray "[1, 2, 3]" = [ofString "1"; ofString "2"; ofString "3"].
Proof.
  apply (array_of_strings_round_trip (λ _, Ok []) ["1" : str; "2" : str; "3" : str]).
  - repeat (constructor; [split; [|reflexivity]; repeat (constructor; [by_evaluation|])|]);
      constructor.
  - discriminate.
Defined.

(** X24: A section without keys does not survive a round trip: [save] writes
    its header, and [load] of that text into a new object stores no section,
    though it ends without an exception. *)
Theorem empty_section_lost (streamDouble : str → Result str) (section : str) :
  newline ∉ section →
  hasSection section (addSection section newParser) = true
  ∧ save streamDouble (addSection section newParser)
    = Ok (lbracket :: trimQuotes (trim section) ++ [rbracket; newline])
  ∧ (load (lbracket :: trimQuotes (trim section) ++ [rbracket; newline]) newParser).2 = None
  ∧ data (load (lbracket :: trimQuotes (trim section) ++ [rbracket; newline]) newParser).1
    = ∅
  ∧ hasSection section
      (load (lbracket :: trimQuotes (trim section) ++ [rbracket; newline]) newParser).1
    = false.
Proof.
  intros Hnl. set (name := trimQuotes (trim section)).
  assert (newline ∉ name) as Hname by by apply not_elem_of_trimQuotes, not_elem_of_trim.
  assert (getlines newline (lbracket :: name ++ [rbracket; newline])
          = [lbracket :: name ++ [rbracket]]) as Hlines.
  { rewrite <- (getlines_unlines newline [lbracket :: name ++ [rbracket]]).
    - simpl. by rewrite <- !app_assoc.
    - constructor; [|constructor]. apply not_elem_of_cons. split; [done|].
      apply not_elem_of_app. split; [done|].
      apply not_elem_of_cons. split; [done|]. apply not_elem_of_nil. }
  assert (headerLine (lbracket :: name ++ [rbracket])) as Hh.
  { unfold headerLine. rewrite trim_id by by apply trimmed_enclosed.
    split; [done | apply last_cons_snoc]. }
  destruct (parseLines_headers [lbracket :: name ++ [rbracket]] (loadStart newParser))
    as [Hd He]; [constructor; [by right; right | constructor]|].
  assert (data (load (lbracket :: name ++ [rbracket; newline]) newParser).1 = ∅) as Hdata.
  { by rewrite load_fst, Hlines, Hd. }
  assert (addSection section newParser
          = {| data := {[ name := ∅ ]}; comments := ∅ |}) as ->.
  { unfold addSection, withData. fold name. simpl.
    case_decide as Hlook; [by rewrite insert_empty|]. by rewrite lookup_empty in Hlook. }
  split_and!.
  - unfold hasSection. fold name. simpl. by rewrite lookup_singleton_eq.
  - unfold save. simpl. rewrite map_to_list_singleton. simpl.
    rewrite map_to_list_empty. unfold saveComments. simpl. rewrite lookup_empty.
    simpl. reflexivity.
  - by rewrite load_snd, Hlines.
  - done.
  - unfold hasSection. by rewrite Hdata, lookup_empty.
Qed.

Lemma empty_section_lost_witness :
  save (λ _, Ok []) (addSection "s" newParser) = Ok ("[s]" ++ [newline]).
Proof. apply (empty_section_lost (λ _, Ok []) "s"). by_evaluation. Defined.

(** ** Loading the same text again *)

Lemma pairAt_insert (d : gmap str (gmap str sConfValue)) (s k s' k' : str)
    (v : sConfValue) :
  pairAt (<[s := <[k := v]> (default ∅ (d !! s))]> d) s' k'
  = if decide (s' = s ∧ k' = k) then Some v else pairAt d s' k'.
Proof.
  unfold pairAt. destruct (decide (s' = s)) as [->|Hs].
  - rewrite lookup_insert_eq. simpl. destruct (decide (k' = k)) as [->|Hk].
    + rewrite lookup_insert_eq. by rewrite decide_True.
    + rewrite lookup_insert_ne by done. rewrite decide_False by by intros [_ ?].
      destruct (d !! s); [done|]. simpl. by rewrite lookup_empty.
  - rewrite lookup_insert_ne by done. by rewrite decide_False by by intros [? _].
Qed.

Lemma parseLine_reloading (final : sConfParser) (line : str) (a b a' b' : LoadState) :
  parseLine line a = Ok a' → parseLine line b = Ok b' →
  (reloadingData final a b → reloadingData final a' b')
  ∧ (reloadingComments final a b → reloadingComments final a' b').
Proof.
  intros Ha Hb.
  destruct (line_cases line) as [Hl|[Hl|[Hl|[[eqPos Hl]|Hl]]]].
  - rewrite parseLine_blank in Ha, Hb by done. injection Ha as <-. by injection Hb as <-.
  - rewrite parseLine_comment in Ha, Hb by done. injection Ha as <-. injection Hb as <-.
    split; [done|]. intros [Hbuf Hc]. split; [|done]. simpl. by rewrite Hbuf.
  - rewrite parseLine_header in Ha, Hb by done. injection Ha as <-. injection Hb as <-.
    split; [intros (_ & ? & ?); by split_and!|]. intros [Hbuf Hc]. split; [done|]. simpl.
    intros s. destruct (decide (sectionOfLine (trim line) = s)) as [->|Hne].
    + rewrite !lookup_insert_eq, Hc, Hbuf.
      destruct (comments (parser a) !! s) as [cs|]; simpl; [by rewrite app_assoc|done].
    + by rewrite !lookup_insert_ne.
  - rewrite (parseLine_keyValue _ eqPos) in Ha, Hb by done.
    injection Ha as <-. injection Hb as <-. split; [|intros [_ Hc]; by split].
    intros (Hcur & Hp & Hs). unfold reloadingData.
    cbn [parser data comments currentSection commentBuffer].
    rewrite <- Hcur. split_and!; [done| |].
    + intros s k. rewrite !pairAt_insert. case_decide; [by left | apply Hp].
    + intros s. destruct (decide (currentSection a = s)) as [->|Hne].
      * left. by rewrite !lookup_insert_eq.
      * rewrite !lookup_insert_ne by done. apply Hs.
  - by rewrite parseLine_malformed in Ha.
Qed.

Lemma parseLines_reloading (final : sConfParser) (lines : list str) (a b : LoadState) :
  (reloadingData final a b →
     reloadingData final (parseLines lines a).1 (parseLines lines b).1)
  ∧ (reloadingComments final a b →
       reloadingComments final (parseLines lines a).1 (parseLines lines b).1).
Proof.
  revert a b. induction lines as [|line lines IH]; intros a b; simpl; [done|].
  destruct (parseLine line a) as [a'|ea] eqn:Ha, (parseLine line b) as [b'|eb] eqn:Hb.
  - destruct (parseLine_reloading final _ _ _ _ _ Ha Hb) as [Hd Hc].
    destruct (IH a' b') as [IHd IHc]. split; eauto.
  - apply parseLine_Throw_inv in Hb as [Hm _]. by rewrite parseLine_malformed in Ha.
  - apply parseLine_Throw_inv in Ha as [Hm _]. by rewrite parseLine_malformed in Hb.
  - done.
Qed.

(** X25: Loading the same text a second time changes no section, key or
    value, and ends as the first time did; but every comment the first call
    stored is stored once more. *)
Theorem load_twice (text : str) (p : sConfParser) :
  data (load text (load text p).1).1 = data (load text p).1
  ∧ (load text (load text p).1).2 = (load text p).2
  ∧ ∀ section,
      comments (load text (load text newParser).1).1 !! section
      = (λ cs, cs ++ cs) <$> comments (load text newParser).1 !! section.
Proof.
  split_and!.
  - set (final := (load text p).1).
    destruct (parseLines_reloading final (getlines newline text)
                (loadStart p) (loadStart final)) as [Hd _].
    destruct Hd as (_ & Hp & Hs).
    { split_and!; [done | by right | by right]. }
    rewrite <- !load_fst in Hp, Hs. fold final in Hp, Hs.
    apply map_eq. intros s.
    assert (is_Some (data (load text final).1 !! s) ↔ is_Some (data final !! s)) as Hiff
      by by destruct (Hs s).
    destruct (data (load text final).1 !! s) as [mb|] eqn:Hb,
             (data final !! s) as [mf|] eqn:Hf.
    + f_equal. apply map_eq. intros k.
      assert (pairAt (data (load text final).1) s k = pairAt (data final) s k) as Hk
        by by destruct (Hp s k).
      unfold pairAt in Hk. by rewrite Hb, Hf in Hk.
    + by destruct (proj1 Hiff) as [? ?].
    + by destruct (proj2 Hiff) as [? ?].
    + done.
  - rewrite !load_snd. apply parseLines_outcome.
  - intros section. set (final := (load text newParser).1).
    destruct (parseLines_reloading final (getlines newline text)
                (loadStart newParser) (loadStart final)) as [_ Hc].
    destruct Hc as [_ Hc]; [by split|].
    rewrite <- !load_fst in Hc. fold final in Hc.
    rewrite Hc. by destruct (comments final !! section).
Qed.
